(** * niri-output-scaler: the scale selector and the output resolution

    A shallow embedding of [niri_output_scaler/__main__.py] and the
    properties of its specification.

    - Python [float] is an IEEE 754 binary64 number.  It is modelled by
      [spec_float], the inductive specification of floating-point numbers
      (signed zeros, infinities, NaN, finite numbers as sign, mantissa,
      exponent), with the library's comparison [SFcompare].  The binary64
      numbers are the [spec_float]s that satisfy [is_float64]; the theorems
      below quantify over all of [spec_float], the concrete inputs are
      binary64 numbers.
    - An exception is a value of [exn]; a call that can raise returns a
      [result].
    - [main] prints and runs a process: it is a computation in [io], a
      writer of [event]s over [result]. *)

From Stdlib Require Import ZArith List Bool Lia.
From Stdlib Require Import SpecFloat.
From stdpp Require Import base strings gmap.
From stdpp Require Import pretty.

Import ListNotations.
Local Open Scope string_scope.
Local Open Scope Z_scope.

(** ** Floats *)

Module Float.

Abbreviation float := spec_float.

Definition prec : Z := 53.
Definition emax : Z := 1024.

(** The binary64 numbers among the [spec_float]s. *)
Definition is_float64 (x : float) : bool := valid_binary prec emax x.

(** [of_Z_exp m e] is the binary64 number [m * 2^e]. *)
Definition of_Z_exp (m e : Z) : float := binary_normalize prec emax m e false.

Definition zero : float := S754_zero false.
Definition neg_zero : float := S754_zero true.
Definition nan : float := S754_nan.

(** Python's [a < b], [a > b], [a <= b], [a >= b], [a == b] on floats. *)
Definition lt (a b : float) : bool := SFltb a b.
Definition gt (a b : float) : bool := SFltb b a.
Definition le (a b : float) : bool := SFleb a b.
Definition ge (a b : float) : bool := SFleb b a.
Definition eq (a b : float) : bool := SFeqb a b.

(** Python's [bool(x)] on a float: [x != 0.0].  Both zeros are falsy,
    NaN is truthy. *)
Definition truthy (x : float) : bool := negb (eq x zero).

End Float.

Import Float.

(** ** Exceptions and results *)

Inductive exn : Type :=
| ValueError (msg : string)
| TypeError (msg : string)
| IndexError (msg : string)
| SystemExit (code : Z)
| Exception (msg : string).

Inductive result (A : Type) : Type :=
| Ok (a : A)
| Raise (e : exn).

Arguments Ok {A} a.
Arguments Raise {A} e.

(** [result] is a monad: [x ← r; k] runs [k] on the value of [r] and
    propagates the exception of [r]. *)
#[export] Instance result_ret : MRet result := fun A a => Ok a.
#[export] Instance result_bind : MBind result := fun A B k r =>
  match r with
  | Ok a => k a
  | Raise e => Raise e
  end.

(** ** Python list operations used by the selector *)

(** [l[i]] with Python's negative indices; out of range raises. *)
Definition subscript {A : Type} (l : list A) (i : Z) : result A :=
  let n := Z.of_nat (length l) in
  let j := if i <? 0 then i + n else i in
  if (j <? 0) || (n <=? j) then Raise (IndexError "list index out of range")
  else match nth_error l (Z.to_nat j) with
       | Some a => Ok a
       | None => Raise (IndexError "list index out of range")
       end.

(** [for s in l: if p s: v = s; break], as a function of the value [v]
    the variable has before the loop. *)
Fixpoint for_break (p : float -> bool) (l : list float) (v : option float)
  : option float :=
  match l with
  | [] => v
  | s :: rest => if p s then Some s else for_break p rest v
  end.

(** [x or y] with [x : float | None]; [y] is evaluated only when [x] is
    falsy ([None], [0.0] or [-0.0]). *)
Definition py_or (x : option float) (y : result float) : result float :=
  match x with
  | Some v => if truthy v then Ok v else y
  | None => y
  end.

(** ** The scale selector *)

Definition find_next_scale (current_scale : float) (target_scales : list float)
    (direction : string) : result (option float) :=
  match target_scales with
  | [] => Ok None
  | _ :: _ =>
      let target_scale_value : option float := None in
      if String.eqb direction "forwards" then
        let target_scale_value :=
          for_break (fun s => gt s current_scale) target_scales
            target_scale_value in
        target_scale_value ←
          py_or target_scale_value (subscript target_scales 0);
        Ok (Some target_scale_value)
      else if String.eqb direction "backwards" then
        let target_scale_value :=
          for_break (fun s => lt s current_scale) (rev target_scales)
            target_scale_value in
        target_scale_value ←
          py_or target_scale_value (subscript target_scales (-1));
        Ok (Some target_scale_value)
      else Raise (ValueError ("Invalid Direction " ++ direction)%string)
  end.

(** ** The compositor state *)

Record WorkspaceEntryDict : Type := {
  ws_id : Z;
  ws_idx : Z;
  ws_name : option string;
  (** [w.get("output")]: [None] when the key is absent. *)
  ws_output : option string;
  is_active : bool;
  is_focused : bool;
  active_window_id : Z
}.

Record OutputLogicalEntryDict : Type := {
  pos_x : Z;
  pos_y : Z;
  width : Z;
  height : Z;
  scale : float;
  transform : string
}.

Record OutputEntryDict : Type := {
  name : string;
  make : string;
  model : string;
  serial : string;
  physical_size : Z * Z;
  modes : list (list (string * Z));
  current_mode : Z;
  vrr_supported : bool;
  vrr_enabled : bool;
  logical : OutputLogicalEntryDict
}.

Record NiriState : Type := {
  workspaces : list WorkspaceEntryDict;
  outputs : gmap string OutputEntryDict
}.

(** What the compositor answers during one run: the two queries of
    [NiriState.new] (an [Exception] when [niri] exits with a non-zero
    status or gives no output) and the exit status of the command that
    sets the scale. *)
Record Compositor : Type := {
  reply_workspaces : result (list WorkspaceEntryDict);
  reply_outputs : result (gmap string OutputEntryDict);
  scale_returncode : Z
}.

Definition NiriState_new (c : Compositor) : result NiriState :=
  workspaces ← reply_workspaces c;
  outputs ← reply_outputs c;
  Ok {| workspaces := workspaces; outputs := outputs |}.

(** [next((w for w in self.workspaces if w["is_focused"]), None)] *)
Definition focused_workspace (self : NiriState) : option WorkspaceEntryDict :=
  List.find is_focused (workspaces self).

Definition active_workspaces (self : NiriState) : list WorkspaceEntryDict :=
  List.filter is_active (workspaces self).

(** Python's [bool(s)] on a string. *)
Definition str_truthy (s : string) : bool := negb (String.eqb s "").

(** A workspace entry has the key [is_focused], so it is a non-empty dict
    and truthy; the output name is truthy when it is present and not
    empty.  Without a [return] the property is [None]. *)
Definition focused_output (self : NiriState) : option OutputEntryDict :=
  match focused_workspace self with
  | Some focused =>
      match ws_output focused with
      | Some output_name =>
          if str_truthy output_name then outputs self !! output_name else None
      | None => None
      end
  | None => None
  end.

(** ** The command line *)

Record Namespace : Type := {
  args_scale : option (list float);
  args_output : string;
  args_direction : string
}.

(** One option of the command line with its value, the value of
    [--scale] already converted by [type=float]. *)
Inductive cli_option : Type :=
| opt_scale (v : float)
| opt_output (v : string)
| opt_direction (v : string).

(** The defaults of the three [add_argument] calls: [action="append"]
    without [default] leaves [None]. *)
Definition default_namespace : Namespace :=
  {| args_scale := None; args_output := "@current";
     args_direction := "forwards" |}.

(** The [append] action copies the list of the namespace ([[]] for [None])
    and appends the value; [store] replaces; a [--direction] outside
    [choices] makes argparse exit with status 2. *)
Definition parse_option (ns : Namespace) (o : cli_option) : result Namespace :=
  match o with
  | opt_scale v =>
      let items := match args_scale ns with Some l => l | None => [] end in
      Ok {| args_scale := Some (items ++ [v])%list; args_output := args_output ns;
            args_direction := args_direction ns |}
  | opt_output v =>
      Ok {| args_scale := args_scale ns; args_output := v;
            args_direction := args_direction ns |}
  | opt_direction v =>
      if String.eqb v "forwards" || String.eqb v "backwards" then
        Ok {| args_scale := args_scale ns; args_output := args_output ns;
              args_direction := v |}
      else Raise (SystemExit 2)
  end.

Fixpoint parse_from (ns : Namespace) (argv : list cli_option) : result Namespace :=
  match argv with
  | [] => Ok ns
  | o :: rest => ns' ← parse_option ns o; parse_from ns' rest
  end.

Definition parse_args (argv : list cli_option) : result Namespace :=
  parse_from default_namespace argv.

(** ** [sorted] *)

Fixpoint insort (v : float) (l : list float) : list float :=
  match l with
  | [] => [v]
  | h :: t => if lt v h then v :: l else h :: insort v t
  end.

(** [sorted(x)]: [None] is not iterable; a list is sorted with [<], equal
    elements keep their order. *)
Definition sorted (x : option (list float)) : result (list float) :=
  match x with
  | None => Raise (TypeError "'NoneType' object is not iterable")
  | Some l => Ok (fold_left (fun acc v => insort v acc) l [])
  end.

(** ** [main] *)

(** What a run prints and executes. *)
Inductive event : Type :=
| stderr_no_focused_output
| stderr_could_not_find_output (output : string)
| stdout_scaling (output_name : string) (next_scale : float)
| run_niri_msg_output_scale (output_name : string) (next_scale : float)
| stdout_could_not_switch
| stdout_did_not_find.

Record io (A : Type) : Type := IO {
  trace : list event;
  outcome : result A
}.

Arguments IO {A} trace outcome.
Arguments trace {A} i.
Arguments outcome {A} i.

#[export] Instance io_ret : MRet io := fun A a => IO [] (Ok a).
#[export] Instance io_bind : MBind io := fun A B k m =>
  match outcome m with
  | Ok a => let n := k a in IO (trace m ++ trace n)%list (outcome n)
  | Raise e => IO (trace m) (Raise e)
  end.

Definition emit (e : event) : io unit := IO [e] (Ok tt).
Definition lift {A : Type} (r : result A) : io A := IO [] r.
Definition sys_exit {A : Type} (code : Z) : io A := IO [] (Raise (SystemExit code)).

(** Lines 129 to 138: the output the run acts on. *)
Definition resolve_output (output : string) (niri : NiriState)
  : io OutputEntryDict :=
  if String.eqb output "@current" then
    match focused_output niri with
    | None => _ ← emit stderr_no_focused_output; sys_exit 1
    | Some target_output => mret target_output
    end
  else
    match outputs niri !! output with
    | Some target_output => mret target_output
    | None => _ ← emit (stderr_could_not_find_output output); sys_exit 1
    end.

(** [main] after [parser.parse_args()].  The scale of an output is a float
    already, [float(...)] of line 141 leaves it as it is. *)
Definition main_args (args : Namespace) (c : Compositor) : io unit :=
  niri ← lift (NiriState_new c);
  target_output ← resolve_output (args_output args) niri;
  let output_name := name target_output in
  let current_scale := scale (logical target_output) in
  target_scales ← lift (sorted (args_scale args));
  next_scale ←
    lift (find_next_scale current_scale target_scales (args_direction args));
  match next_scale with (* [if next_scale:] on [float | None] *)
  | Some s =>
      if truthy s then
        _ ← emit (stdout_scaling output_name s);
        _ ← emit (run_niri_msg_output_scale output_name s);
        if scale_returncode c =? 0 then mret tt
        else emit stdout_could_not_switch
      else emit stdout_did_not_find
  | None => emit stdout_did_not_find
  end.

Definition main (argv : list cli_option) (c : Compositor) : io unit :=
  args ← lift (parse_args argv);
  main_args args c.

(** ** The query client *)

(** A process after [proc.wait()]: its exit status, and what its standard
    output holds ([None] when there is no pipe). *)
Record Process : Type := {
  returncode : Z;
  stdout : option string
}.

Section QueryClient.

(** The JSON documents and [json.loads], which can raise. *)
Variable json : Type.
Variable loads : string -> result json.

(** The compositor as the program sees it: the process that the [n]-th
    [subprocess.Popen] of the run starts, for its command line. *)
Variable popen : nat -> list string -> Process.

(** The state of the client: the memo table of [functools.cache], keyed by
    the positional arguments and the [type] keyword, and the command lines
    of the processes started so far. *)
Record Client : Type := {
  cache : gmap (list string * string) json;
  started : list (list string)
}.

Definition niri_json_from_msg_raw (msg : list string) (type : string)
    (st : Client) : result json * Client :=
  let command := (["niri"; "msg"; "--json"] ++ msg)%list in
  let proc := popen (length (started st)) command in
  let st := {| cache := cache st; started := (started st ++ [command])%list |} in
  if negb (returncode proc =? 0) then
    (Raise (Exception ("niri returned non-zero status " +:+
                       pretty (returncode proc))), st)
  else
    match stdout proc with
    | None => (Raise (Exception "No output from niri"), st)
    | Some text => (loads text, st)
    end.

(** [@cache]: a key of the table is answered from the table; a call that
    returns is stored, a call that raises is not. *)
Definition _niri_json_from_msg_cached (msg : list string) (type : string)
    (st : Client) : result json * Client :=
  match cache st !! (msg, type) with
  | Some output => (Ok output, st)
  | None =>
      let '(r, st) := niri_json_from_msg_raw msg type st in
      match r with
      | Ok output =>
          (Ok output,
           {| cache := <[(msg, type) := output]> (cache st);
              started := started st |})
      | Raise e => (Raise e, st)
      end
  end.

Definition niri_json_from_msg (msg : list string) (type : string)
    (st : Client) : result json * Client :=
  _niri_json_from_msg_cached msg type st.

(** The two queries of [NiriState.new], lines 85 to 91: the documents for
    [workspaces] and [outputs]. *)
Definition NiriState_new_queries (st : Client)
  : result (json * json) * Client :=
  let '(r, st) :=
    niri_json_from_msg ["workspaces"] "Sequence[WorkspaceEntryDict]" st in
  match r with
  | Raise e => (Raise e, st)
  | Ok workspaces =>
      let '(r, st) :=
        niri_json_from_msg ["outputs"] "Mapping[str, OutputEntryDict]" st in
      match r with
      | Raise e => (Raise e, st)
      | Ok outputs => (Ok (workspaces, outputs), st)
      end
  end.

(** A run of queries one after the other, results dropped. *)
Fixpoint queries (qs : list (list string * string)) (st : Client) : Client :=
  match qs with
  | [] => st
  | (msg, type) :: rest => queries rest (snd (niri_json_from_msg msg type st))
  end.

End QueryClient.

Arguments cache {json} c.
Arguments started {json} c.

(** ** Target lists *)

(** An ascending list: each element is [<=] the next one.  NaN is [<=]
    nothing, so an ascending list of two or more elements holds no NaN. *)
Fixpoint ascending (l : list float) : bool :=
  match l with
  | a :: (b :: _) as rest => le a b && ascending rest
  | _ => true
  end.

Definition is_minimum (m : float) (l : list float) : Prop :=
  In m l /\ forall t, In t l -> le m t = true.

Definition is_maximum (m : float) (l : list float) : Prop :=
  In m l /\ forall t, In t l -> le t m = true.

(** Two elements that differ, with Python's [!=]. *)
Definition two_distinct (l : list float) : Prop :=
  exists a b, In a l /\ In b l /\ eq a b = false.

Definition valid_direction (direction : string) : Prop :=
  direction = "forwards" \/ direction = "backwards".

(** [x or wrap] when [wrap] raises nothing. *)
Definition or_else (found : option float) (wrap : float) : float :=
  match found with
  | Some v => if truthy v then v else wrap
  | None => wrap
  end.

(** The claims' words for the two directions: the first element strictly
    greater than [current] in ascending order, else [targets[0]]; the first
    element strictly less than [current] in descending order, else
    [targets[-1]]. *)
Definition spec_forwards (current : float) (targets : list float) : option float :=
  match List.find (fun s => gt s current) targets with
  | Some s => Some s
  | None => head targets
  end.

Definition spec_backwards (current : float) (targets : list float) : option float :=
  match List.find (fun s => lt s current) (rev targets) with
  | Some s => Some s
  | None => last targets
  end.

(** The states without a focused output: no workspace is focused, or the
    focused workspace has no output name, or its output name is not a key
    of [outputs]. *)
Definition no_focused_output (niri : NiriState) : Prop :=
  (forall w, In w (workspaces niri) -> is_focused w = false) \/
  (exists w, focused_workspace niri = Some w /\ ws_output w = None) \/
  (exists w output_name,
      focused_workspace niri = Some w /\ ws_output w = Some output_name /\
      outputs niri !! output_name = None).

(** [h] is [<=] the first element of [l], if there is one. *)
Definition le_head (h : float) (l : list float) : Prop :=
  match l with
  | [] => True
  | b :: _ => le h b = true
  end.

(** A list without NaN, the only float that differs from itself. *)
Definition no_nan (l : list float) : Prop :=
  forall t, In t l -> eq t t = true.

(** A strictly ascending list: each element is [<] the next one. *)
Fixpoint strictly_ascending (l : list float) : bool :=
  match l with
  | a :: (b :: _) as rest => lt a b && strictly_ascending rest
  | _ => true
  end.

(** No element is [0.0] or [-0.0]. *)
Definition no_zero (l : list float) : Prop :=
  forall t, In t l -> truthy t = true.

(** The element the selector wraps to: [targets[0]] for [forwards],
    [targets[-1]] otherwise. *)
Definition wrap_target (direction : string) (targets : list float)
  : option float :=
  if String.eqb direction "forwards" then head targets else last targets.

(** What the run does once it has a truthy next scale: lines 146 to 149. *)
Definition scaling_trace (output_name : string) (next_scale : float)
    (returncode : Z) : list event :=
  [stdout_scaling output_name next_scale;
   run_niri_msg_output_scale output_name next_scale] ++
  (if returncode =? 0 then [] else [stdout_could_not_switch]).

(** ** Concrete inputs *)

Definition f1_0 := of_Z_exp 1 0.
Definition f1_5 := of_Z_exp 3 (-1).
Definition f1_75 := of_Z_exp 7 (-2).
Definition f2_0 := of_Z_exp 2 0.

Definition fm0_5 := of_Z_exp (-1) (-1).
Definition fm1_0 := of_Z_exp (-1) 0.

Definition eDP_1 : OutputEntryDict :=
  {| name := "eDP-1"; make := "BOE"; model := "0x0BCA"; serial := "";
     physical_size := (300, 190); modes := []; current_mode := 0;
     vrr_supported := false; vrr_enabled := false;
     logical := {| pos_x := 0; pos_y := 0; width := 1920; height := 1200;
                   scale := f1_0; transform := "Normal" |} |}.

Definition workspace (id : Z) (output : option string) (focused : bool)
  : WorkspaceEntryDict :=
  {| ws_id := id; ws_idx := id; ws_name := None; ws_output := output;
     is_active := focused; is_focused := focused; active_window_id := 0 |}.

(** One output; the focused workspace is on an output that is not there. *)
Definition unplugged : Compositor :=
  {| reply_workspaces :=
       Ok [workspace 1 (Some "eDP-1") false; workspace 2 (Some "HDMI-A-1") true];
     reply_outputs := Ok {[ "eDP-1" := eDP_1 ]};
     scale_returncode := 0 |}.

(** One output with the focused workspace. *)
Definition laptop : Compositor :=
  {| reply_workspaces := Ok [workspace 1 (Some "eDP-1") true];
     reply_outputs := Ok {[ "eDP-1" := eDP_1 ]};
     scale_returncode := 0 |}.

(** A client for the examples: documents are texts, the empty text does
    not parse; one compositor answers every query, one answers none. *)
Definition text_loads (text : string) : result string :=
  if String.eqb text "" then Raise (ValueError "Expecting value") else Ok text.

Definition answering (n : nat) (command : list string) : Process :=
  {| returncode := 0; stdout := Some "[]" |}.

Definition failing (n : nat) (command : list string) : Process :=
  {| returncode := 1; stdout := Some "[]" |}.

Definition fresh : Client string := {| cache := ∅; started := [] |}.

(** ** The order of floats *)

Section FloatOrder.

Lemma compare_cont_Eq (p q : positive) :
  PosDef.Pos.compare_cont Eq p q = (p ?= q)%positive.
Proof. reflexivity. Qed.

Ltac case_compare :=
  match goal with
  | |- context [(?a ?= ?b)%positive] => destruct (Pos.compare_spec a b)
  | |- context [(?a ?= ?b)%Z] => destruct (Z.compare_spec a b)
  | H : context [(?a ?= ?b)%positive] |- _ => destruct (Pos.compare_spec a b)
  | H : context [(?a ?= ?b)%Z] |- _ => destruct (Z.compare_spec a b)
  end.

Ltac by_cases :=
  simpl in *;
  repeat match goal with s : bool |- _ => destruct s end;
  simpl in *; try congruence;
  repeat (rewrite ?compare_cont_Eq in *; case_compare; simpl in *;
          try congruence; try lia).

Lemma compare_antisym (a b : float) :
  SFcompare b a = option_map CompOpp (SFcompare a b).
Proof.
  destruct a as [s1| s1| |s1 m1 e1], b as [s2| s2| |s2 m2 e2]; by_cases.
Qed.

Lemma compare_Lt_trans (a b c : float) :
  SFcompare a b = Some Lt -> SFcompare b c = Some Lt ->
  SFcompare a c = Some Lt.
Proof.
  destruct a as [s1| s1| |s1 m1 e1], b as [s2| s2| |s2 m2 e2],
    c as [s3| s3| |s3 m3 e3]; by_cases.
Qed.

Lemma compare_Eq_l (a b c : float) :
  SFcompare a b = Some Eq -> SFcompare a c = SFcompare b c.
Proof.
  destruct a as [s1| s1| |s1 m1 e1], b as [s2| s2| |s2 m2 e2],
    c as [s3| s3| |s3 m3 e3]; by_cases.
Qed.

Lemma compare_refl (a b : float) (o : comparison) :
  SFcompare a b = Some o -> SFcompare a a = Some Eq.
Proof.
  destruct a as [s1| s1| |s1 m1 e1], b as [s2| s2| |s2 m2 e2]; by_cases.
Qed.

Lemma compare_flip (a b : float) (o : comparison) :
  SFcompare a b = Some o -> SFcompare b a = Some (CompOpp o).
Proof. intros H. rewrite compare_antisym, H. reflexivity. Qed.

Lemma lt_not_eq (a b : float) : lt a b = true -> eq b a = false.
Proof.
  unfold lt, eq, SFltb, SFeqb. rewrite (compare_antisym a b).
  destruct (SFcompare a b) as [[]|]; simpl; congruence.
Qed.

Lemma le_not_gt (a b : float) : le a b = true -> lt b a = false.
Proof.
  unfold lt, le, SFltb, SFleb. rewrite (compare_antisym a b).
  destruct (SFcompare a b) as [[]|]; simpl; congruence.
Qed.

Lemma le_neq_lt (a b : float) : le a b = true -> eq a b = false -> lt a b = true.
Proof.
  unfold lt, le, eq, SFltb, SFleb, SFeqb.
  destruct (SFcompare a b) as [[]|]; congruence.
Qed.

Lemma le_refl_l (a b : float) : le a b = true -> le a a = true.
Proof.
  unfold le, SFleb. destruct (SFcompare a b) as [o|] eqn:E; [|discriminate].
  rewrite (compare_refl a b o E). reflexivity.
Qed.

Lemma le_refl_r (a b : float) : le a b = true -> le b b = true.
Proof.
  unfold le, SFleb. destruct (SFcompare a b) as [o|] eqn:E; [|discriminate].
  rewrite (compare_refl b a _ (compare_flip a b o E)). reflexivity.
Qed.

Lemma le_trans (a b c : float) : le a b = true -> le b c = true -> le a c = true.
Proof.
  unfold le, SFleb.
  destruct (SFcompare a b) as [[]|] eqn:Eab; try discriminate;
    destruct (SFcompare b c) as [[]|] eqn:Ebc; try discriminate; intros _ _.
  - rewrite (compare_Eq_l a b c Eab), Ebc. reflexivity.
  - rewrite (compare_Eq_l a b c Eab), Ebc. reflexivity.
  - apply compare_flip in Ebc. apply compare_flip in Eab. simpl in *.
    rewrite (compare_antisym c a), (compare_Eq_l c b a Ebc), Eab.
    reflexivity.
  - rewrite (compare_Lt_trans a b c Eab Ebc). reflexivity.
Qed.

Lemma eq_lt_l (a c t : float) : eq a c = true -> lt a t = true -> lt c t = true.
Proof.
  unfold eq, lt, SFeqb, SFltb.
  destruct (SFcompare a c) as [[]|] eqn:E; try discriminate. intros _.
  rewrite (compare_Eq_l a c t E). trivial.
Qed.

Lemma eq_lt_r (a c t : float) : eq a c = true -> lt t a = true -> lt t c = true.
Proof.
  unfold eq, lt, SFeqb, SFltb.
  destruct (SFcompare a c) as [[]|] eqn:E; try discriminate. intros _.
  rewrite (compare_antisym a t), (compare_antisym c t),
    (compare_Eq_l a c t E). trivial.
Qed.

Lemma eq_refl_l (a c : float) : eq a c = true -> eq a a = true.
Proof.
  unfold eq, SFeqb.
  destruct (SFcompare a c) as [o|] eqn:E; [|discriminate].
  rewrite (compare_refl a c o E). reflexivity.
Qed.

Lemma eq_eq_eq (t a b : float) : eq t a = true -> eq t b = true -> eq a b = true.
Proof.
  unfold eq, SFeqb.
  destruct (SFcompare t a) as [[]|] eqn:E; try discriminate. intros _.
  rewrite (compare_Eq_l t a b E). trivial.
Qed.

Lemma eq_sym (a b : float) : eq a b = eq b a.
Proof.
  unfold eq, SFeqb. rewrite (compare_antisym a b).
  destruct (SFcompare a b) as [[]|]; reflexivity.
Qed.

Lemma lt_truthy (t : float) : lt zero t = true -> truthy t = true.
Proof. intros H. unfold truthy. rewrite (lt_not_eq _ _ H). reflexivity. Qed.

Lemma not_lt_le (a b : float) :
  eq a a = true -> eq b b = true -> lt a b = false -> le b a = true.
Proof.
  unfold eq, lt, le, SFeqb, SFltb, SFleb.
  destruct a as [s1| s1| |s1 m1 e1], b as [s2| s2| |s2 m2 e2]; by_cases.
Qed.

Lemma lt_le (a b : float) : lt a b = true -> le a b = true.
Proof.
  unfold lt, le, SFltb, SFleb. destruct (SFcompare a b) as [[]|]; congruence.
Qed.

End FloatOrder.

(** ** Loops, subscripts and ascending lists *)

Section Lists.

Variable p : float -> bool.

Lemma for_break_find (l : list float) : for_break p l None = List.find p l.
Proof. induction l as [|s l IH]; simpl; [|rewrite IH]; reflexivity. Qed.

Lemma for_break_Some (l : list float) (s : float) :
  for_break p l None = Some s -> In s l /\ p s = true.
Proof. rewrite for_break_find. apply find_some. Qed.

Lemma for_break_None (l : list float) :
  for_break p l None = None -> forall t, In t l -> p t = false.
Proof. rewrite for_break_find. apply find_none. Qed.

End Lists.

Lemma subscript_first {A : Type} (a : A) (l : list A) : subscript (a :: l) 0 = Ok a.
Proof.
  unfold subscript.
  replace (Z.of_nat (length (a :: l)) <=? 0) with false; [reflexivity|].
  symmetry. apply Z.leb_gt. simpl length. lia.
Qed.

Lemma subscript_last {A : Type} (l : list A) (a : A) :
  subscript (l ++ [a])%list (-1) = Ok a.
Proof.
  unfold subscript. cbv zeta. rewrite length_app. simpl length.
  change (-1 <? 0) with true. cbv iota.
  replace (-1 + Z.of_nat (length l + 1)) with (Z.of_nat (length l)) by lia.
  destruct (Z.ltb_spec (Z.of_nat (length l)) 0); [lia|].
  destruct (Z.leb_spec (Z.of_nat (length l + 1)) (Z.of_nat (length l))); [lia|].
  simpl. rewrite Nat2Z.id, nth_error_app2 by lia.
  rewrite Nat.sub_diag. reflexivity.
Qed.

Lemma ascending_tail (a : float) (l : list float) :
  ascending (a :: l) = true -> ascending l = true.
Proof.
  destruct l as [|b l]; [reflexivity|]. simpl.
  intros H. apply andb_prop in H. apply H.
Qed.

Lemma ascending_head (a : float) (l : list float) :
  ascending (a :: l) = true -> forall t, In t l -> le a t = true.
Proof.
  revert a. induction l as [|b l IH]; intros a H t Ht; [destruct Ht|].
  simpl in H. apply andb_prop in H. destruct H as [Hab Hl].
  destruct Ht as [<-|Ht]; [exact Hab|].
  apply (le_trans a b t Hab). apply IH; assumption.
Qed.

Lemma ascending_last (l : list float) (m : float) :
  ascending (l ++ [m])%list = true -> forall t, In t l -> le t m = true.
Proof.
  induction l as [|a l IH]; intros H t Ht; [destruct Ht|].
  change ((a :: l) ++ [m])%list with (a :: (l ++ [m]))%list in H.
  destruct Ht as [<-|Ht].
  - apply (ascending_head _ _ H). apply in_or_app. right. left. reflexivity.
  - apply IH; [|exact Ht]. apply (ascending_tail _ _ H).
Qed.

Lemma ascending_head_all (a : float) (l : list float) :
  ascending (a :: l) = true -> le a a = true ->
  forall t, In t (a :: l) -> le a t = true.
Proof.
  intros H Ha t [<-|Ht]; [exact Ha|]. apply (ascending_head a l H t Ht).
Qed.

Lemma ascending_last_all (l : list float) (m : float) :
  ascending (l ++ [m])%list = true -> le m m = true ->
  forall t, In t (l ++ [m])%list -> le t m = true.
Proof.
  intros H Hm t Ht. apply in_app_or in Ht. destruct Ht as [Ht|[<-|[]]].
  - apply (ascending_last l m H t Ht).
  - exact Hm.
Qed.

Lemma ascending_cons (a : float) (l : list float) :
  ascending (a :: l) = true <-> le_head a l /\ ascending l = true.
Proof.
  destruct l as [|b l]; simpl; [tauto|].
  rewrite andb_true_iff. tauto.
Qed.

Lemma insort_In (v t : float) (l : list float) :
  In t (insort v l) -> t = v \/ In t l.
Proof.
  induction l as [|h l IH]; simpl.
  - intros [<-|[]]. left. reflexivity.
  - destruct (lt v h); simpl; intros [<-|H]; auto.
    destruct (IH H); auto.
Qed.

Lemma insort_ascending (v : float) (l : list float) :
  eq v v = true -> no_nan l -> ascending l = true ->
  ascending (insort v l) = true /\
  forall h, le h v = true -> le_head h l -> le_head h (insort v l).
Proof.
  intros Hv. induction l as [|b l IH]; intros Hl Hasc.
  - split; [reflexivity|]. intros h Hh _. exact Hh.
  - simpl. destruct (lt v b) eqn:E.
    + split; [|intros h Hh _; exact Hh].
      apply ascending_cons. split; [apply lt_le; exact E|exact Hasc].
    + apply ascending_cons in Hasc. destruct Hasc as [Hb Hasc].
      destruct IH as [IH1 IH2]; [intros t Ht; apply Hl; right; exact Ht|exact Hasc|].
      split; [|intros h _ Hh; exact Hh].
      apply ascending_cons. split; [|exact IH1].
      apply IH2; [|exact Hb].
      apply not_lt_le; [exact Hv| |exact E]. apply Hl. left. reflexivity.
Qed.

(** [sorted] gives what the selector asks for: on a list without NaN the
    sorted list is ascending. *)
Lemma sorted_ascending (l : list float) :
  no_nan l -> exists l', sorted (Some l) = Ok l' /\ ascending l' = true.
Proof.
  intros Hl. eexists. split; [reflexivity|].
  assert (G : forall acc, no_nan acc -> ascending acc = true -> no_nan l ->
    ascending (fold_left (fun acc v => insort v acc) l acc) = true).
  { clear Hl. induction l as [|v l IH]; intros acc Hacc Hasc Hl; [exact Hasc|].
    simpl. apply IH.
    - intros t Ht. destruct (insort_In _ _ _ Ht) as [->|Ht'];
        [apply Hl; left; reflexivity|apply Hacc; exact Ht'].
    - apply insort_ascending; [apply Hl; left; reflexivity|exact Hacc|exact Hasc].
    - intros t Ht. apply Hl. right. exact Ht. }
  apply G; [intros t []|reflexivity|exact Hl].
Qed.

Lemma forwards_eq (c a : float) (l : list float) :
  find_next_scale c (a :: l) "forwards" =
  Ok (Some (or_else (for_break (fun s => gt s c) (a :: l) None) a)).
Proof.
  unfold find_next_scale. change (String.eqb "forwards" "forwards") with true.
  cbv iota zeta. rewrite subscript_first.
  destruct (for_break (fun s => gt s c) (a :: l) None) as [v|]; simpl;
    [destruct (truthy v)|]; reflexivity.
Qed.

Lemma backwards_eq (c m : float) (l : list float) :
  find_next_scale c (l ++ [m])%list "backwards" =
  Ok (Some (or_else (for_break (fun s => lt s c) (m :: rev l) None) m)).
Proof.
  unfold find_next_scale.
  change (String.eqb "backwards" "forwards") with false.
  change (String.eqb "backwards" "backwards") with true.
  rewrite subscript_last, rev_app_distr. simpl rev. simpl app.
  destruct l as [|a l]; simpl app; cbv iota zeta;
    (destruct (for_break (fun s => lt s c) (m :: _) None) as [v|]; simpl;
     [destruct (truthy v)|]; reflexivity).
Qed.

(** The selector does what the words say whenever the element the scan
    stops at is not a zero. *)
Lemma forwards_spec (c : float) (T : list float) :
  T <> [] ->
  (forall s, List.find (fun s => gt s c) T = Some s -> truthy s = true) ->
  find_next_scale c T "forwards" = Ok (spec_forwards c T).
Proof.
  intros HT Hnz. destruct T as [|a l]; [congruence|].
  rewrite forwards_eq. unfold spec_forwards.
  rewrite for_break_find in *.
  destruct (List.find (fun s => gt s c) (a :: l)) as [s|] eqn:E; simpl.
  - rewrite (Hnz s eq_refl). reflexivity.
  - reflexivity.
Qed.

Lemma backwards_spec (c : float) (T : list float) :
  T <> [] ->
  (forall s, List.find (fun s => lt s c) (rev T) = Some s -> truthy s = true) ->
  find_next_scale c T "backwards" = Ok (spec_backwards c T).
Proof.
  intros HT Hnz. destruct (exists_last HT) as [l [m ->]].
  rewrite backwards_eq. unfold spec_backwards.
  rewrite for_break_find in *. rewrite rev_app_distr in *. simpl rev in *.
  simpl app in *. rewrite last_snoc.
  destruct (List.find (fun s => lt s c) (m :: rev l)) as [s|] eqn:E; simpl.
  - rewrite (Hnz s eq_refl). reflexivity.
  - reflexivity.
Qed.

Lemma or_else_cases (found : option float) (wrap : float) :
  (exists v, found = Some v /\ truthy v = true /\ or_else found wrap = v) \/
  or_else found wrap = wrap.
Proof.
  destruct found as [v|]; simpl; [|right; reflexivity].
  destruct (truthy v) eqn:E; [left; exists v; auto|right; reflexivity].
Qed.

(** The core of the cycling argument: on an ascending list without zeros
    that holds two different values the result differs from the current
    scale. *)
Lemma next_differs (c : float) (T : list float) (d : string) :
  ascending T = true ->
  (forall t, In t T -> truthy t = true) ->
  two_distinct T ->
  valid_direction d ->
  exists r, find_next_scale c T d = Ok (Some r) /\ In r T /\ eq r c = false.
Proof.
  intros Hasc Hnz (a' & b' & Ha' & Hb' & Hab) [-> | ->].
  - destruct T as [|a l]; [destruct Ha'|].
    rewrite forwards_eq. eexists. split; [reflexivity|].
    destruct (for_break (fun s => gt s c) (a :: l) None) as [s|] eqn:E.
    + destruct (for_break_Some _ _ _ E) as [Hin Hgt].
      simpl. rewrite (Hnz s Hin). split; [exact Hin|].
      apply lt_not_eq. exact Hgt.
    + simpl or_else. split; [left; reflexivity|].
      destruct (eq a c) eqn:Eac; [exfalso|reflexivity].
      assert (Hle : forall t, In t (a :: l) -> le a t = true).
      { apply ascending_head_all; [exact Hasc|].
        generalize (eq_refl_l a c Eac). unfold eq, le, SFeqb, SFleb.
        destruct (SFcompare a a) as [[]|]; congruence. }
      assert (Hex : exists t, In t (a :: l) /\ eq a t = false).
      { destruct (eq a a') eqn:E1; [|exists a'; auto].
        destruct (eq a b') eqn:E2; [|exists b'; auto].
        rewrite (eq_eq_eq a a' b' E1 E2) in Hab. discriminate. }
      destruct Hex as (t & Ht & Hne).
      pose proof (le_neq_lt a t (Hle t Ht) Hne) as Hlt.
      pose proof (eq_lt_l a c t Eac Hlt) as Hct.
      pose proof (for_break_None _ _ E t Ht) as Hno. simpl in Hno.
      unfold gt in Hno. unfold lt in Hct. congruence.
  - assert (HT : T <> []) by (destruct T; [destruct Ha'|discriminate]).
    destruct (exists_last HT) as [l [m ->]].
    rewrite backwards_eq. eexists. split; [reflexivity|].
    destruct (for_break (fun s => lt s c) (m :: rev l) None) as [s|] eqn:E.
    + destruct (for_break_Some _ _ _ E) as [Hin Hlt].
      assert (Hin' : In s (l ++ [m])%list).
      { apply in_or_app. destruct Hin as [<-|Hin]; [right; left; reflexivity|].
        left. apply in_rev. exact Hin. }
      simpl. rewrite (Hnz s Hin'). split; [exact Hin'|].
      rewrite eq_sym. apply lt_not_eq. exact Hlt.
    + simpl or_else. split; [apply in_or_app; right; left; reflexivity|].
      destruct (eq m c) eqn:Emc; [exfalso|reflexivity].
      assert (Hle : forall t, In t (l ++ [m])%list -> le t m = true).
      { apply ascending_last_all; [exact Hasc|].
        generalize (eq_refl_l m c Emc). unfold eq, le, SFeqb, SFleb.
        destruct (SFcompare m m) as [[]|]; congruence. }
      assert (Hex : exists t, In t (l ++ [m])%list /\ eq t m = false).
      { destruct (eq m a') eqn:E1; [|exists a'; rewrite eq_sym; auto].
        destruct (eq m b') eqn:E2; [|exists b'; rewrite eq_sym; auto].
        rewrite (eq_eq_eq m a' b' E1 E2) in Hab. discriminate. }
      destruct Hex as (t & Ht & Hne).
      pose proof (le_neq_lt t m (Hle t Ht) Hne) as Hlt.
      pose proof (eq_lt_r m c t Emc Hlt) as Htc.
      assert (Hin : In t (m :: rev l)).
      { apply in_app_or in Ht. destruct Ht as [Ht|[<-|[]]];
          [right; apply in_rev in Ht; exact Ht|left; reflexivity]. }
      pose proof (for_break_None _ _ E t Hin) as Hno. simpl in Hno.
      congruence.
Qed.

(** ** Truthiness, and the concrete cases of the specification with
    [T = [1.0, 1.5, 2.0]] *)

Example truthy_values :
  truthy zero = false /\ truthy neg_zero = false /\ truthy nan = true /\
  truthy f1_0 = true /\ truthy fm1_0 = true.
Proof. repeat split; reflexivity. Qed.

Example concrete_cases :
  let T := [f1_0; f1_5; f2_0] in
  find_next_scale f1_0 T "forwards" = Ok (Some f1_5) /\
  find_next_scale f2_0 T "forwards" = Ok (Some f1_0) /\
  find_next_scale f1_5 T "backwards" = Ok (Some f1_0) /\
  find_next_scale f1_0 T "backwards" = Ok (Some f2_0) /\
  find_next_scale f1_75 T "forwards" = Ok (Some f2_0) /\
  find_next_scale f1_75 T "backwards" = Ok (Some f1_5).
Proof. repeat split; reflexivity. Qed.

(** ** The scale selector: claims *)

(** C1.  The claim: on a non-empty ascending list, [forwards] returns the
    first target strictly greater than the current scale, else
    [targets[0]].  At the current scale [-0.5] and the targets
    [[-1.0, 0.0]] (binary64 numbers, ascending) the first target strictly
    greater than the current scale is [0.0], and the selector returns
    [-1.0]: the [or] of line 171 takes the zero it found for "nothing
    found". *)
Theorem forwards_zero_found_is_dropped :
  forallb is_float64 [fm0_5; fm1_0; zero] = true /\
  ascending [fm1_0; zero] = true /\
  spec_forwards fm0_5 [fm1_0; zero] = Some zero /\
  find_next_scale fm0_5 [fm1_0; zero] "forwards" = Ok (Some fm1_0) /\
  eq fm1_0 zero = false.
Proof. repeat split; reflexivity. Qed.

(** C2.  The claim: on a non-empty ascending list, [backwards] returns the
    first target, in descending order, strictly less than the current
    scale, else [targets[-1]].  At the current scale [1.0] and the targets
    [[0.0, 1.0, 2.0]] the first target strictly less than the current
    scale is [0.0], and the selector returns [2.0]: the [or] of line 177
    takes the zero it found for "nothing found". *)
Theorem backwards_zero_found_is_dropped :
  forallb is_float64 [f1_0; zero; f2_0] = true /\
  ascending [zero; f1_0; f2_0] = true /\
  spec_backwards f1_0 [zero; f1_0; f2_0] = Some zero /\
  find_next_scale f1_0 [zero; f1_0; f2_0] "backwards" = Ok (Some f2_0) /\
  eq f2_0 zero = false.
Proof. repeat split; reflexivity. Qed.

(** C3.  In both directions a value that [find_next_scale] returns is an
    element of the targets list (ascending or not). *)
Theorem result_in_targets (c : float) (T : list float) (d : string) (r : float) :
  valid_direction d ->
  find_next_scale c T d = Ok (Some r) ->
  In r T.
Proof.
  intros Hd H. assert (HT : T <> []) by (intros ->; discriminate H).
  destruct Hd as [-> | ->].
  - destruct T as [|a l]; [congruence|]. rewrite forwards_eq in H.
    remember (for_break (fun s => gt s c) (a :: l) None) as found eqn:Ef.
    injection H as <-.
    destruct (or_else_cases found a) as [(v & E & _ & ->)| ->];
      [|left; reflexivity].
    subst found. apply (for_break_Some _ _ _ E).
  - destruct (exists_last HT) as [l [m ->]]. rewrite backwards_eq in H.
    remember (for_break (fun s => lt s c) (m :: rev l) None) as found eqn:Ef.
    injection H as <-.
    destruct (or_else_cases found m) as [(v & E & _ & ->)| ->];
      [|apply in_or_app; right; left; reflexivity].
    subst found. apply in_or_app.
    destruct (for_break_Some _ _ _ E) as [[<-|Hin] _];
      [right; left; reflexivity|left; apply in_rev; exact Hin].
Qed.

Lemma result_in_targets_witness :
  valid_direction "backwards" /\
  find_next_scale f1_75 [f1_0; f1_5; f2_0] "backwards" = Ok (Some f1_5) /\
  In f1_5 [f1_0; f1_5; f2_0].
Proof.
  split; [right; reflexivity|]. split; [reflexivity|].
  apply (result_in_targets f1_75 [f1_0; f1_5; f2_0] "backwards" f1_5);
    [right; reflexivity|reflexivity].
Defined.

(** C4 as stated fails: with the single target [1.0] and the current scale
    [1.0] nothing is strictly greater, and the wrap returns [targets[0]],
    the element equal to the current scale. *)
Lemma equal_element_returned_single_target :
  ascending [f1_0] = true /\
  In f1_0 [f1_0] /\
  eq f1_0 f1_0 = true /\
  find_next_scale f1_0 [f1_0] "forwards" = Ok (Some f1_0).
Proof. repeat split; try reflexivity. left. reflexivity. Qed.

(** C4, amended.  On an ascending list of targets none of which is a zero
    and which holds at least two different values, in both directions: if
    the current scale equals a target, the selector returns a target that
    is not equal to the current scale, hence not that element. *)
Theorem equal_element_not_returned (c t : float) (T : list float) (d : string) :
  ascending T = true ->
  (forall s, In s T -> truthy s = true) ->
  two_distinct T ->
  valid_direction d ->
  In t T -> eq c t = true ->
  exists r, find_next_scale c T d = Ok (Some r) /\ eq r c = false /\ r <> t.
Proof.
  intros Hasc Hnz H2 Hd Ht Hct.
  destruct (next_differs c T d Hasc Hnz H2 Hd) as (r & Hr & _ & Hne).
  exists r. split; [exact Hr|]. split; [exact Hne|].
  intros ->. rewrite eq_sym in Hne. congruence.
Qed.

Lemma equal_element_not_returned_witness :
  exists r, find_next_scale f1_5 [f1_0; f1_5; f2_0] "forwards" = Ok (Some r) /\
            eq r f1_5 = false /\ r <> f1_5.
Proof.
  apply (equal_element_not_returned f1_5 f1_5 [f1_0; f1_5; f2_0] "forwards").
  - reflexivity.
  - intros s [<-|[<-|[<-|[]]]]; reflexivity.
  - exists f1_0, f1_5. split; [left; reflexivity|].
    split; [right; left; reflexivity|reflexivity].
  - left. reflexivity.
  - right. left. reflexivity.
  - reflexivity.
Defined.

(** C5.  On a non-empty ascending list: a current scale greater than or
    equal to the maximum makes [forwards] return the minimum, and a current
    scale less than or equal to the minimum makes [backwards] return the
    maximum. *)
Theorem wraparound_min_max (c : float) (T : list float) :
  T <> [] ->
  ascending T = true ->
  (forall mx, is_maximum mx T -> ge c mx = true ->
     exists r, find_next_scale c T "forwards" = Ok (Some r) /\
               is_minimum r T /\ head T = Some r) /\
  (forall mn, is_minimum mn T -> le c mn = true ->
     exists r, find_next_scale c T "backwards" = Ok (Some r) /\
               is_maximum r T /\ last T = Some r).
Proof.
  intros HT Hasc. split.
  - intros mx [Hin Hmx] Hc. destruct T as [|a l]; [congruence|].
    rewrite forwards_eq. exists a.
    assert (E : for_break (fun s => gt s c) (a :: l) None = None).
    { rewrite for_break_find.
      destruct (List.find (fun s => gt s c) (a :: l)) as [s|] eqn:E;
        [|reflexivity].
      apply find_some in E. destruct E as [Hs Hgt].
      pose proof (le_trans s mx c (Hmx s Hs) Hc) as Hsc.
      apply le_not_gt in Hsc. unfold gt in Hgt. unfold lt in Hsc. congruence. }
    rewrite E. split; [reflexivity|]. split; [|reflexivity].
    split; [left; reflexivity|].
    apply ascending_head_all; [exact Hasc|].
    apply (le_refl_l a mx). apply Hmx. left. reflexivity.
  - intros mn [Hin Hmn] Hc. destruct (exists_last HT) as [l [m ->]].
    rewrite backwards_eq. exists m.
    assert (E : for_break (fun s => lt s c) (m :: rev l) None = None).
    { rewrite for_break_find.
      destruct (List.find (fun s => lt s c) (m :: rev l)) as [s|] eqn:E;
        [|reflexivity].
      apply find_some in E. destruct E as [Hs Hlt].
      assert (Hs' : In s (l ++ [m])%list).
      { apply in_or_app. destruct Hs as [<-|Hs];
          [right; left; reflexivity|left; apply in_rev; exact Hs]. }
      pose proof (le_trans c mn s Hc (Hmn s Hs')) as Hcs.
      apply le_not_gt in Hcs. congruence. }
    rewrite E. split; [reflexivity|]. split; [|apply last_snoc].
    split; [apply in_or_app; right; left; reflexivity|].
    apply ascending_last_all; [exact Hasc|].
    apply (le_refl_r mn m). apply Hmn. apply in_or_app. right. left. reflexivity.
Qed.

Lemma wraparound_min_max_witness :
  (exists r, find_next_scale f2_0 [f1_0; f1_5; f2_0] "forwards" = Ok (Some r) /\
             is_minimum r [f1_0; f1_5; f2_0] /\
             head [f1_0; f1_5; f2_0] = Some r) /\
  (exists r, find_next_scale f1_0 [f1_0; f1_5; f2_0] "backwards" = Ok (Some r) /\
             is_maximum r [f1_0; f1_5; f2_0] /\
             last [f1_0; f1_5; f2_0] = Some r).
Proof.
  assert (HT : [f1_0; f1_5; f2_0] <> []) by discriminate.
  split.
  - apply (proj1 (wraparound_min_max f2_0 [f1_0; f1_5; f2_0] HT eq_refl) f2_0).
    + split; [right; right; left; reflexivity|].
      intros t [<-|[<-|[<-|[]]]]; reflexivity.
    + reflexivity.
  - apply (proj2 (wraparound_min_max f1_0 [f1_0; f1_5; f2_0] HT eq_refl) f1_0).
    + split; [left; reflexivity|].
      intros t [<-|[<-|[<-|[]]]]; reflexivity.
    + reflexivity.
Defined.

(** C6 as stated fails: on an empty list the guard of line 160 returns
    [None] before the direction is looked at, whatever the direction. *)
Lemma sideways_on_empty_returns_none :
  "sideways" <> "forwards" /\ "sideways" <> "backwards" /\
  find_next_scale f1_0 [] "sideways" = Ok None.
Proof. repeat split; try discriminate. Qed.

(** C6, amended.  With a direction other than ["forwards"] and
    ["backwards"], [find_next_scale] raises [ValueError] on every non-empty
    list of targets, and returns [None] on the empty list. *)
Theorem invalid_direction (c : float) (T : list float) (d : string) :
  d <> "forwards" -> d <> "backwards" ->
  find_next_scale c T d =
  match T with
  | [] => Ok None
  | _ :: _ => Raise (ValueError ("Invalid Direction " ++ d)%string)
  end.
Proof.
  intros Hf Hb. destruct T as [|a l]; [reflexivity|].
  unfold find_next_scale.
  apply String.eqb_neq in Hf. apply String.eqb_neq in Hb.
  rewrite Hf, Hb. reflexivity.
Qed.

Lemma invalid_direction_witness :
  find_next_scale f1_0 [f1_0; f1_5] "sideways" =
  Raise (ValueError "Invalid Direction sideways").
Proof.
  apply (invalid_direction f1_0 [f1_0; f1_5] "sideways"); discriminate.
Defined.

(** C7.  On an empty list of targets [find_next_scale] returns [None] in
    both directions and raises nothing. *)
Theorem empty_returns_none (c : float) :
  find_next_scale c [] "forwards" = Ok None /\
  find_next_scale c [] "backwards" = Ok None.
Proof. split; reflexivity. Qed.

(** C9.  On an ascending list of strictly positive targets with at least
    two different values, in both directions and for every current scale,
    [find_next_scale] returns a value not equal to the current scale. *)
Theorem next_scale_differs (c : float) (T : list float) (d : string) :
  ascending T = true ->
  (forall t, In t T -> gt t zero = true) ->
  two_distinct T ->
  valid_direction d ->
  exists r, find_next_scale c T d = Ok (Some r) /\ eq r c = false.
Proof.
  intros Hasc Hpos H2 Hd.
  destruct (next_differs c T d Hasc) as (r & Hr & _ & Hne); auto.
  - intros t Ht. apply lt_truthy. apply (Hpos t Ht).
  - exists r. auto.
Qed.

Lemma next_scale_differs_witness :
  exists r, find_next_scale f2_0 [f1_0; f1_5; f2_0] "forwards" = Ok (Some r) /\
            eq r f2_0 = false.
Proof.
  apply (next_scale_differs f2_0 [f1_0; f1_5; f2_0] "forwards").
  - reflexivity.
  - intros t [<-|[<-|[<-|[]]]]; reflexivity.
  - exists f1_0, f1_5. split; [left; reflexivity|].
    split; [right; left; reflexivity|reflexivity].
  - left. reflexivity.
Defined.

(** ** Output resolution and [main]: claims *)

Lemma focused_output_None (niri : NiriState) :
  no_focused_output niri -> focused_output niri = None.
Proof.
  unfold focused_output. intros [H|[(w & -> & ->)|(w & n & -> & -> & ->)]].
  - destruct (focused_workspace niri) as [w|] eqn:E; [|reflexivity].
    apply find_some in E. destruct E as [Hin Hf].
    rewrite (H w Hin) in Hf. discriminate.
  - reflexivity.
  - destruct (str_truthy n); reflexivity.
Qed.

Lemma bind_lift_Ok {A B : Type} (a : A) (k : A -> io B) :
  (x ← lift (Ok a); k x) = k a.
Proof.
  unfold mbind, io_bind, lift. simpl. destruct (k a). reflexivity.
Qed.

Lemma bind_lift_Raise {A B : Type} (e : exn) (k : A -> io B) :
  (x ← lift (Raise e); k x) = IO [] (Raise e).
Proof. reflexivity. Qed.

(** C8.  In a state of [no_focused_output], [focused_output] is [None],
    and a run on the output ["@current"] prints "No focused output!" on
    standard error and exits with status 1; it selects no output. *)
Theorem sentinel_without_focused_output
    (argv : list cli_option) (args : Namespace) (c : Compositor)
    (niri : NiriState) :
  parse_args argv = Ok args ->
  args_output args = "@current" ->
  NiriState_new c = Ok niri ->
  no_focused_output niri ->
  focused_output niri = None /\
  main argv c = IO [stderr_no_focused_output] (Raise (SystemExit 1)).
Proof.
  intros Hargs Hout Hnew Hno.
  pose proof (focused_output_None niri Hno) as Hfo.
  split; [exact Hfo|].
  unfold main. rewrite Hargs, bind_lift_Ok.
  unfold main_args. rewrite Hnew, bind_lift_Ok.
  unfold resolve_output. rewrite Hout, Hfo. reflexivity.
Qed.


Lemma sentinel_without_focused_output_witness :
  focused_output
    {| workspaces :=
         [workspace 1 (Some "eDP-1") false; workspace 2 (Some "HDMI-A-1") true];
       outputs := {[ "eDP-1" := eDP_1 ]} |} = None /\
  main [opt_scale f1_0; opt_scale f1_5] unplugged =
  IO [stderr_no_focused_output] (Raise (SystemExit 1)).
Proof.
  apply (sentinel_without_focused_output [opt_scale f1_0; opt_scale f1_5]
           {| args_scale := Some [f1_0; f1_5]; args_output := "@current";
              args_direction := "forwards" |} unplugged).
  - reflexivity.
  - reflexivity.
  - reflexivity.
  - right. right. exists (workspace 2 (Some "HDMI-A-1") true), "HDMI-A-1".
    split; [reflexivity|]. split; [reflexivity|]. vm_compute. reflexivity.
Defined.

Lemma parse_from_no_scale (argv : list cli_option) (ns args : Namespace) :
  (forall v, ~ In (opt_scale v) argv) ->
  parse_from ns argv = Ok args ->
  args_scale args = args_scale ns.
Proof.
  revert ns. induction argv as [|o rest IH]; intros ns Hno H.
  - simpl in H. congruence.
  - simpl in H. destruct (parse_option ns o) as [ns'|e] eqn:E; [|discriminate H].
    assert (Hns : args_scale ns' = args_scale ns).
    { destruct o as [v|v|v]; simpl in E.
      - exfalso. apply (Hno v). left. reflexivity.
      - injection E as <-. reflexivity.
      - destruct (String.eqb v "forwards" || String.eqb v "backwards");
          [injection E as <-; reflexivity|discriminate E]. }
    rewrite <- Hns. apply IH; [|exact H].
    intros v Hv. apply (Hno v). right. exact Hv.
Qed.

Lemma resolve_output_Ok (output : string) (niri : NiriState)
    (target_output : OutputEntryDict) :
  outcome (resolve_output output niri) = Ok target_output ->
  resolve_output output niri = lift (Ok target_output).
Proof.
  unfold resolve_output, lift.
  destruct (String.eqb output "@current").
  - destruct (focused_output niri); [|discriminate].
    unfold mret, io_ret. simpl. congruence.
  - destruct (outputs niri !! output); [|discriminate].
    unfold mret, io_ret. simpl. congruence.
Qed.

(** C10 as stated fails: without [--scale], in a state without a focused
    output, the run ends at [sys.exit(1)] of line 132, before the sorting
    step; no [TypeError] is raised. *)
Lemma no_scale_flag_exit_before_sorted :
  parse_args [] = Ok default_namespace /\
  args_scale default_namespace = None /\
  main [] unplugged = IO [stderr_no_focused_output] (Raise (SystemExit 1)).
Proof. repeat split; reflexivity. Qed.

(** C10, amended.  When the command line has no [--scale], the parsed
    scale list is [None]; and when moreover the compositor answers the two
    queries and the output resolution succeeds, [main] prints nothing and
    ends with the uncaught [TypeError] of [sorted(None)]; it does not
    report that no action was taken. *)
Theorem no_scale_flag_TypeError
    (argv : list cli_option) (args : Namespace) (c : Compositor)
    (niri : NiriState) (target_output : OutputEntryDict) :
  (forall v, ~ In (opt_scale v) argv) ->
  parse_args argv = Ok args ->
  NiriState_new c = Ok niri ->
  outcome (resolve_output (args_output args) niri) = Ok target_output ->
  args_scale args = None /\
  main argv c = IO [] (Raise (TypeError "'NoneType' object is not iterable")).
Proof.
  intros Hno Hargs Hnew Hres.
  assert (Hscale : args_scale args = None)
    by apply (parse_from_no_scale argv default_namespace args Hno Hargs).
  split; [exact Hscale|].
  unfold main. rewrite Hargs, bind_lift_Ok.
  unfold main_args. rewrite Hnew, bind_lift_Ok.
  rewrite (resolve_output_Ok _ _ _ Hres), bind_lift_Ok.
  rewrite Hscale. reflexivity.
Qed.

Lemma no_scale_flag_TypeError_witness :
  args_scale {| args_scale := None; args_output := "eDP-1";
                args_direction := "backwards" |} = None /\
  main [opt_direction "backwards"; opt_output "eDP-1"] laptop =
  IO [] (Raise (TypeError "'NoneType' object is not iterable")).
Proof.
  apply (no_scale_flag_TypeError [opt_direction "backwards"; opt_output "eDP-1"]
           {| args_scale := None; args_output := "eDP-1";
              args_direction := "backwards" |} laptop
           {| workspaces := [workspace 1 (Some "eDP-1") true];
              outputs := {[ "eDP-1" := eDP_1 ]} |} eDP_1).
  - intros v [H|[H|[]]]; discriminate H.
  - reflexivity.
  - reflexivity.
  - vm_compute. reflexivity.
Defined.

(** * Further properties of the code *)

(** ** The scale selector *)

Lemma find_app_float (p : float -> bool) (l1 l2 : list float) :
  List.find p (l1 ++ l2)%list =
  match List.find p l1 with
  | Some s => Some s
  | None => List.find p l2
  end.
Proof.
  induction l1 as [|a l1 IH]; simpl; [reflexivity|].
  destruct (p a); [reflexivity|exact IH].
Qed.

Lemma find_all_false (p : float -> bool) (l : list float) :
  (forall t, In t l -> p t = false) -> List.find p l = None.
Proof.
  intros H. destruct (List.find p l) as [s|] eqn:E; [|reflexivity].
  apply find_some in E. destruct E as [Hin Hp].
  rewrite (H s Hin) in Hp. discriminate.
Qed.

Lemma forwards_found (c s : float) (T : list float) :
  List.find (fun s => gt s c) T = Some s -> truthy s = true ->
  find_next_scale c T "forwards" = Ok (Some s).
Proof.
  intros E Hs.
  assert (HT : T <> []) by (intros ->; discriminate E).
  rewrite (forwards_spec c T HT); [unfold spec_forwards; rewrite E; reflexivity|].
  intros s' E'. rewrite E in E'. injection E' as <-. exact Hs.
Qed.

Lemma forwards_not_found (c : float) (T : list float) :
  List.find (fun s => gt s c) T = None ->
  find_next_scale c T "forwards" = Ok (head T).
Proof.
  intros E. destruct T as [|a l]; [reflexivity|].
  rewrite forwards_eq, for_break_find, E. reflexivity.
Qed.

Lemma backwards_found (c s : float) (T : list float) :
  List.find (fun s => lt s c) (rev T) = Some s -> truthy s = true ->
  find_next_scale c T "backwards" = Ok (Some s).
Proof.
  intros E Hs.
  assert (HT : T <> []) by (intros ->; discriminate E).
  rewrite (backwards_spec c T HT);
    [unfold spec_backwards; rewrite E; reflexivity|].
  intros s' E'. rewrite E in E'. injection E' as <-. exact Hs.
Qed.

Lemma backwards_not_found (c : float) (T : list float) :
  List.find (fun s => lt s c) (rev T) = None ->
  find_next_scale c T "backwards" = Ok (last T).
Proof.
  intros E. destruct T as [|a l]; [reflexivity|].
  assert (HT : a :: l <> []) by discriminate.
  destruct (exists_last HT) as [l' [m Hl]]. rewrite Hl in *.
  rewrite backwards_eq, for_break_find. rewrite rev_app_distr in E.
  simpl in E. simpl List.find. destruct (lt m c); [discriminate E|].
  rewrite E, last_snoc. reflexivity.
Qed.

Lemma find_next_scale_In (c r : float) (T : list float) (d : string) :
  find_next_scale c T d = Ok (Some r) -> In r T.
Proof.
  intros H. destruct T as [|a l]; [discriminate H|].
  destruct (String.eqb_spec d "forwards") as [->|Hf].
  - destruct (List.find (fun s => gt s c) (a :: l)) as [s|] eqn:E.
    + rewrite forwards_eq, for_break_find, E in H. simpl in H.
      apply find_some in E.
      destruct (truthy s); injection H as <-; [apply E|left; reflexivity].
    + rewrite (forwards_not_found c _ E) in H. injection H as <-.
      left. reflexivity.
  - destruct (String.eqb_spec d "backwards") as [->|Hb].
    + destruct (List.find (fun s => lt s c) (rev (a :: l))) as [s|] eqn:E.
      * assert (HT : a :: l <> []) by discriminate.
        destruct (exists_last HT) as [l' [m Hl]]. rewrite Hl in *.
        rewrite backwards_eq, for_break_find in H.
        rewrite rev_app_distr in E. simpl app in E. rewrite E in H.
        simpl in H. apply find_some in E. destruct E as [Hin _].
        destruct (truthy s); injection H as <-.
        -- apply in_or_app. destruct Hin as [<-|Hin];
             [right; left; reflexivity|left; apply in_rev; exact Hin].
        -- apply in_or_app. right. left. reflexivity.
      * rewrite (backwards_not_found c _ E) in H.
        destruct (last (a :: l)) as [m|] eqn:El; [|discriminate H].
        injection H as <-. apply list_elem_of_In. apply last_Some_elem_of.
        exact El.
    + unfold find_next_scale in H.
      apply String.eqb_neq in Hf. apply String.eqb_neq in Hb.
      rewrite Hf, Hb in H. discriminate H.
Qed.

(** X1.  With a valid direction [find_next_scale] raises nothing, and it
    returns [None] exactly on the empty list: on a non-empty list there is
    always a next scale. *)
Theorem none_only_on_empty (c : float) (T : list float) (d : string) :
  valid_direction d ->
  exists o, find_next_scale c T d = Ok o /\ (o = None <-> T = []).
Proof.
  intros [-> | ->].
  - destruct T as [|a l]; [exists None; split; [reflexivity|tauto]|].
    rewrite forwards_eq. eexists. split; [reflexivity|].
    split; discriminate.
  - destruct T as [|a l]; [exists None; split; [reflexivity|tauto]|].
    assert (HT : a :: l <> []) by discriminate.
    destruct (exists_last HT) as [l' [m ->]].
    rewrite backwards_eq. eexists. split; [reflexivity|].
    split; [discriminate|]. intros H. destruct l'; discriminate H.
Qed.

Lemma none_only_on_empty_witness :
  exists o, find_next_scale f1_75 [f1_0; f1_5] "backwards" = Ok o /\
            (o = None <-> [f1_0; f1_5] = []).
Proof.
  apply (none_only_on_empty f1_75 [f1_0; f1_5] "backwards").
  right. reflexivity.
Defined.

Lemma lt_irrefl (a : float) : lt a a = false.
Proof.
  unfold lt, SFltb. pose proof (compare_antisym a a) as H.
  destruct (SFcompare a a) as [[]|]; simpl in H; congruence.
Qed.

Lemma lt_trans (a b c : float) : lt a b = true -> lt b c = true -> lt a c = true.
Proof.
  unfold lt, SFltb.
  destruct (SFcompare a b) as [[]|] eqn:Eab; try discriminate.
  destruct (SFcompare b c) as [[]|] eqn:Ebc; try discriminate.
  rewrite (compare_Lt_trans a b c Eab Ebc). reflexivity.
Qed.

Lemma strictly_ascending_ascending (l : list float) :
  strictly_ascending l = true -> ascending l = true.
Proof.
  induction l as [|a [|b l] IH]; try reflexivity.
  intros H. apply andb_prop in H. destruct H as [Hab Hl].
  change (le a b && ascending (b :: l) = true).
  rewrite (lt_le a b Hab), (IH Hl). reflexivity.
Qed.

Lemma strictly_ascending_head (a : float) (l : list float) :
  strictly_ascending (a :: l) = true -> forall t, In t l -> lt a t = true.
Proof.
  revert a. induction l as [|b l IH]; intros a H t Ht; [destruct Ht|].
  apply andb_prop in H. destruct H as [Hab Hl].
  destruct Ht as [<-|Ht]; [exact Hab|].
  apply (lt_trans a b t Hab). apply IH; assumption.
Qed.

Lemma strictly_ascending_app_r (l1 l2 : list float) :
  strictly_ascending (l1 ++ l2)%list = true -> strictly_ascending l2 = true.
Proof.
  induction l1 as [|a l1 IH]; [trivial|]. intros H. apply IH.
  change ((a :: l1) ++ l2)%list with (a :: (l1 ++ l2))%list in H.
  destruct (l1 ++ l2)%list; [reflexivity|].
  apply andb_prop in H. apply H.
Qed.

Lemma ascending_app_r (l1 l2 : list float) :
  ascending (l1 ++ l2)%list = true -> ascending l2 = true.
Proof.
  induction l1 as [|a l1 IH]; [trivial|]. intros H. apply IH.
  apply (ascending_tail a). exact H.
Qed.

Lemma ascending_app_l (l1 l2 : list float) (a : float) :
  ascending (l1 ++ a :: l2)%list = true -> forall t, In t l1 -> le t a = true.
Proof.
  induction l1 as [|b l1 IH]; intros H t Ht; [destruct Ht|].
  change ((b :: l1) ++ a :: l2)%list with (b :: (l1 ++ a :: l2))%list in H.
  destruct Ht as [<-|Ht].
  - apply (ascending_head _ _ H). apply in_or_app. right. left. reflexivity.
  - apply IH; [|exact Ht]. apply (ascending_tail _ _ H).
Qed.

(** X2.  On a non-empty list without a zero, in any order, [forwards]
    returns the first element (in list order) strictly greater than the
    current scale, and [targets[0]] when there is none. *)
Theorem forwards_without_zero (c : float) (T : list float) :
  T <> [] -> no_zero T ->
  find_next_scale c T "forwards" = Ok (spec_forwards c T).
Proof.
  intros HT Hnz. apply (forwards_spec c T HT).
  intros s E. apply find_some in E. apply Hnz. apply E.
Qed.

Lemma forwards_without_zero_witness :
  find_next_scale f1_5 [f2_0; f1_0; f1_75] "forwards" =
  Ok (spec_forwards f1_5 [f2_0; f1_0; f1_75]).
Proof.
  apply (forwards_without_zero f1_5 [f2_0; f1_0; f1_75]); [discriminate|].
  intros t [<-|[<-|[<-|[]]]]; reflexivity.
Defined.

(** X3.  On a non-empty list without a zero, in any order, [backwards]
    returns the first element, from the end of the list, strictly less
    than the current scale, and [targets[-1]] when there is none. *)
Theorem backwards_without_zero (c : float) (T : list float) :
  T <> [] -> no_zero T ->
  find_next_scale c T "backwards" = Ok (spec_backwards c T).
Proof.
  intros HT Hnz. apply (backwards_spec c T HT).
  intros s E. apply find_some in E. apply Hnz. apply in_rev. apply E.
Qed.

Lemma backwards_without_zero_witness :
  find_next_scale f1_5 [f2_0; f1_0; f1_75] "backwards" =
  Ok (spec_backwards f1_5 [f2_0; f1_0; f1_75]).
Proof.
  apply (backwards_without_zero f1_5 [f2_0; f1_0; f1_75]); [discriminate|].
  intros t [<-|[<-|[<-|[]]]]; reflexivity.
Defined.

(** X4.  A zero is returned only as the wrap target: when
    [find_next_scale] returns [0.0] or [-0.0], the value is [targets[0]]
    for [forwards] and [targets[-1]] for [backwards]; a zero the scan
    stops at is never returned for itself. *)
Theorem zero_only_as_wrap_target (c r : float) (T : list float) (d : string) :
  find_next_scale c T d = Ok (Some r) ->
  truthy r = false ->
  wrap_target d T = Some r.
Proof.
  intros H Hr. destruct T as [|a l]; [discriminate H|].
  unfold wrap_target.
  destruct (String.eqb_spec d "forwards") as [->|Hf].
  - rewrite forwards_eq in H.
    destruct (or_else_cases (for_break (fun s => gt s c) (a :: l) None) a)
      as [(v & _ & Hv & E)|E]; rewrite E in H; injection H as <-.
    + congruence.
    + reflexivity.
  - destruct (String.eqb_spec d "backwards") as [->|Hb].
    + assert (HT : a :: l <> []) by discriminate.
      destruct (exists_last HT) as [l' [m Hl]]. rewrite Hl in *.
      rewrite backwards_eq in H.
      destruct (or_else_cases (for_break (fun s => lt s c) (m :: rev l') None) m)
        as [(v & _ & Hv & E)|E]; rewrite E in H; injection H as <-.
      * congruence.
      * apply last_snoc.
    + unfold find_next_scale in H.
      apply String.eqb_neq in Hf. apply String.eqb_neq in Hb.
      rewrite Hf, Hb in H. discriminate H.
Qed.

Lemma zero_only_as_wrap_target_witness :
  wrap_target "backwards" [fm1_0; zero] = Some zero.
Proof.
  apply (zero_only_as_wrap_target fm1_0 zero [fm1_0; zero] "backwards");
    reflexivity.
Defined.

Lemma forwards_between (c a b : float) (l1 l2 : list float) :
  ascending (l1 ++ a :: b :: l2)%list = true ->
  le a c = true -> lt c b = true -> truthy b = true ->
  find_next_scale c (l1 ++ a :: b :: l2)%list "forwards" = Ok (Some b).
Proof.
  intros Hasc Hac Hcb Hb. apply forwards_found; [|exact Hb].
  rewrite find_app_float, find_all_false.
  - simpl. unfold gt. fold (lt c a). rewrite (le_not_gt a c Hac).
    fold (lt c b). rewrite Hcb. reflexivity.
  - intros t Ht. unfold gt. fold (lt c t). apply le_not_gt.
    apply (le_trans t a c); [|exact Hac].
    apply (ascending_app_l l1 (b :: l2) a Hasc t Ht).
Qed.

(** X5.  Stepping up between two neighbours: on an ascending list, for a
    current scale [c] with [a <= c < b], where [a] and [b] are consecutive
    targets and [b] is not a zero, [forwards] returns [b]. *)
Theorem step_up (c a b : float) (l1 l2 : list float) :
  ascending (l1 ++ a :: b :: l2)%list = true ->
  le a c = true -> lt c b = true -> truthy b = true ->
  find_next_scale c (l1 ++ a :: b :: l2)%list "forwards" = Ok (Some b).
Proof.
  intros Hasc Hac Hcb Hb. apply forwards_found; [|exact Hb].
  rewrite find_app_float, find_all_false.
  - simpl. unfold gt. fold (lt c a). rewrite (le_not_gt a c Hac).
    fold (lt c b). rewrite Hcb. reflexivity.
  - intros t Ht. unfold gt. fold (lt c t). apply le_not_gt.
    apply (le_trans t a c); [|exact Hac].
    apply (ascending_app_l l1 (b :: l2) a Hasc t Ht).
Qed.

Lemma step_up_witness :
  find_next_scale f1_75 ([f1_0] ++ f1_5 :: f2_0 :: [])%list "forwards" =
  Ok (Some f2_0).
Proof. apply (step_up f1_75 f1_5 f2_0 [f1_0] []); reflexivity. Defined.

Lemma backwards_between (c a b : float) (l1 l2 : list float) :
  ascending (l1 ++ a :: b :: l2)%list = true ->
  lt a c = true -> le c b = true -> truthy a = true ->
  find_next_scale c (l1 ++ a :: b :: l2)%list "backwards" = Ok (Some a).
Proof.
  intros Hasc Hac Hcb Ha. apply backwards_found; [|exact Ha].
  rewrite rev_app_distr. simpl rev. rewrite <- !app_assoc. simpl app.
  rewrite find_app_float, find_all_false.
  - simpl. rewrite (le_not_gt c b Hcb), Hac. reflexivity.
  - intros t Ht. apply in_rev in Ht. apply le_not_gt.
    apply (le_trans c b t Hcb).
    apply ascending_app_r in Hasc. apply ascending_tail in Hasc.
    apply (ascending_head b l2 Hasc t Ht).
Qed.

(** X6.  Stepping down between two neighbours: on an ascending list, for
    a current scale [c] with [a < c <= b], where [a] and [b] are
    consecutive targets and [a] is not a zero, [backwards] returns [a]. *)
Theorem step_down (c a b : float) (l1 l2 : list float) :
  ascending (l1 ++ a :: b :: l2)%list = true ->
  lt a c = true -> le c b = true -> truthy a = true ->
  find_next_scale c (l1 ++ a :: b :: l2)%list "backwards" = Ok (Some a).
Proof.
  intros Hasc Hac Hcb Ha. apply backwards_found; [|exact Ha].
  rewrite rev_app_distr. simpl rev. rewrite <- !app_assoc. simpl app.
  rewrite find_app_float, find_all_false.
  - simpl. rewrite (le_not_gt c b Hcb), Hac. reflexivity.
  - intros t Ht. apply in_rev in Ht. apply le_not_gt.
    apply (le_trans c b t Hcb).
    apply ascending_app_r in Hasc. apply ascending_tail in Hasc.
    apply (ascending_head b l2 Hasc t Ht).
Qed.

Lemma step_down_witness :
  find_next_scale f1_75 ([f1_0] ++ f1_5 :: f2_0 :: [])%list "backwards" =
  Ok (Some f1_5).
Proof. apply (step_down f1_75 f1_5 f2_0 [f1_0] []); reflexivity. Defined.

Lemma list_rev_case (l : list float) :
  l = [] \/ exists a l', l = (l' ++ [a])%list.
Proof.
  destruct l as [|x l]; [left; reflexivity|right].
  destruct (exists_last (l:=x :: l)) as [l' [a E]]; [discriminate|].
  exists a, l'. exact E.
Qed.

Lemma strictly_ascending_split (l1 l2 : list float) (c : float) :
  strictly_ascending (l1 ++ c :: l2)%list = true ->
  (forall t, In t l1 -> lt t c = true) /\ (forall t, In t l2 -> lt c t = true).
Proof.
  intros H. split.
  - induction l1 as [|a l1 IH]; intros t Ht; [destruct Ht|].
    change ((a :: l1) ++ c :: l2)%list with (a :: (l1 ++ c :: l2))%list in H.
    destruct Ht as [<-|Ht].
    + apply (strictly_ascending_head _ _ H). apply in_or_app.
      right. left. reflexivity.
    + apply IH; [|exact Ht]. apply (strictly_ascending_app_r [a] _ H).
  - apply strictly_ascending_head. apply (strictly_ascending_app_r l1 _ H).
Qed.

(** X7.  On a strictly ascending list without a zero the two directions
    undo each other at every target: from a target [c], [forwards] gives
    some [r], and [backwards] from [r] gives [c] again. *)
Theorem forwards_then_backwards (c : float) (T : list float) :
  strictly_ascending T = true -> no_zero T -> In c T ->
  exists r, find_next_scale c T "forwards" = Ok (Some r) /\
            find_next_scale r T "backwards" = Ok (Some c).
Proof.
  intros Hs Hnz Hc. pose proof (strictly_ascending_ascending T Hs) as Hasc.
  destruct (in_split c T Hc) as (l1 & l2 & ->).
  destruct (strictly_ascending_split l1 l2 c Hs) as [Hl1 Hl2].
  destruct l2 as [|b l2].
  - assert (Hnone : List.find (fun s => gt s c) (l1 ++ [c])%list = None).
    { apply find_all_false. intros t Ht. unfold gt. fold (lt c t).
      apply in_app_or in Ht. destruct Ht as [Ht|[<-|[]]].
      - apply le_not_gt, lt_le, Hl1, Ht.
      - apply lt_irrefl. }
    rewrite (forwards_not_found c _ Hnone).
    destruct l1 as [|h l1];
      [cbn [app]; simpl head
      |change (head ((h :: l1) ++ [c])%list) with (Some h)].
    + exists c. split; [reflexivity|].
      rewrite (backwards_not_found c [c]); [reflexivity|].
      simpl. rewrite lt_irrefl. reflexivity.
    + exists h. split; [reflexivity|].
      rewrite (backwards_not_found h ((h :: l1) ++ [c])%list).
      * rewrite last_snoc. reflexivity.
      * apply find_all_false. intros t Ht. apply in_rev in Ht.
        destruct Ht as [<-|Ht]; [apply lt_irrefl|].
        apply le_not_gt, lt_le. apply (strictly_ascending_head h _ Hs t Ht).
  - assert (Hcb : lt c b = true) by (apply Hl2; left; reflexivity).
    exists b. split.
    + apply forwards_between;
        [exact Hasc|apply (le_refl_l c b), lt_le, Hcb|exact Hcb|].
      apply Hnz. apply in_or_app. right. right. left. reflexivity.
    + apply backwards_between;
        [exact Hasc|exact Hcb|apply (le_refl_r c b), lt_le, Hcb|].
      apply Hnz. apply in_or_app. right. left. reflexivity.
Qed.

Lemma forwards_then_backwards_witness :
  exists r, find_next_scale f2_0 [f1_0; f1_5; f2_0] "forwards" = Ok (Some r) /\
            find_next_scale r [f1_0; f1_5; f2_0] "backwards" = Ok (Some f2_0).
Proof.
  apply (forwards_then_backwards f2_0 [f1_0; f1_5; f2_0]).
  - reflexivity.
  - intros t [<-|[<-|[<-|[]]]]; reflexivity.
  - right. right. left. reflexivity.
Defined.

(** X8.  And the other way round: from a target [c] of a strictly
    ascending list without a zero, [backwards] gives some [r], and
    [forwards] from [r] gives [c] again. *)
Theorem backwards_then_forwards (c : float) (T : list float) :
  strictly_ascending T = true -> no_zero T -> In c T ->
  exists r, find_next_scale c T "backwards" = Ok (Some r) /\
            find_next_scale r T "forwards" = Ok (Some c).
Proof.
  intros Hs Hnz Hc. pose proof (strictly_ascending_ascending T Hs) as Hasc.
  destruct (in_split c T Hc) as (l1 & l2 & ->).
  destruct (strictly_ascending_split l1 l2 c Hs) as [Hl1 Hl2].
  destruct (list_rev_case l1) as [->|(a & l1' & ->)].
  - assert (Hnone : List.find (fun s => lt s c) (rev (c :: l2)) = None).
    { apply find_all_false. intros t Ht. apply in_rev in Ht.
      destruct Ht as [<-|Ht]; [apply lt_irrefl|].
      apply le_not_gt, lt_le, Hl2, Ht. }
    simpl app. rewrite (backwards_not_found c _ Hnone).
    destruct (last (c :: l2)) as [m|] eqn:Em;
      [|apply last_None in Em; discriminate Em].
    exists m. split; [reflexivity|].
    rewrite (forwards_not_found m (c :: l2)); [reflexivity|].
    apply find_all_false. intros t Ht. unfold gt. fold (lt m t).
    destruct (exists_last (l:=c :: l2)) as [l' [m' E]]; [discriminate|].
    rewrite E in *. rewrite last_snoc in Em. injection Em as ->.
    destruct (strictly_ascending_split l' [] m Hs) as [Hl' _].
    apply in_app_or in Ht. destruct Ht as [Ht|[<-|[]]].
    + apply le_not_gt, lt_le, Hl', Ht.
    + apply lt_irrefl.
  - assert (Hac : lt a c = true)
      by (apply Hl1; apply in_or_app; right; left; reflexivity).
    rewrite <- !app_assoc in *. simpl app in *.
    exists a. split.
    + apply backwards_between;
        [exact Hasc|exact Hac|apply (le_refl_r a c), lt_le, Hac|].
      apply Hnz. apply in_or_app. right. left. reflexivity.
    + apply forwards_between;
        [exact Hasc|apply (le_refl_l a c), lt_le, Hac|exact Hac|].
      apply Hnz. apply in_or_app. right. right. left. reflexivity.
Qed.

Lemma backwards_then_forwards_witness :
  exists r, find_next_scale f1_0 [f1_0; f1_5; f2_0] "backwards" = Ok (Some r) /\
            find_next_scale r [f1_0; f1_5; f2_0] "forwards" = Ok (Some f1_0).
Proof.
  apply (backwards_then_forwards f1_0 [f1_0; f1_5; f2_0]).
  - reflexivity.
  - intros t [<-|[<-|[<-|[]]]]; reflexivity.
  - left. reflexivity.
Defined.

(** X9.  A NaN current scale compares false with everything: on every
    list [forwards] returns [targets[0]] and [backwards] returns
    [targets[-1]] ([None] on the empty list). *)
Theorem nan_current_wraps (T : list float) :
  find_next_scale nan T "forwards" = Ok (head T) /\
  find_next_scale nan T "backwards" = Ok (last T).
Proof.
  split.
  - apply forwards_not_found. apply find_all_false. intros t _.
    unfold gt, nan, SFltb. reflexivity.
  - apply backwards_not_found. apply find_all_false. intros t _.
    unfold lt, nan, SFltb. destruct t; reflexivity.
Qed.

(** ** The command line and [sorted] *)

Lemma parse_from_direction (argv : list cli_option) (ns args : Namespace) :
  parse_from ns argv = Ok args ->
  valid_direction (args_direction ns) ->
  valid_direction (args_direction args).
Proof.
  revert ns. induction argv as [|o rest IH]; intros ns H Hd.
  - simpl in H. injection H as <-. exact Hd.
  - simpl in H. destruct (parse_option ns o) as [ns'|e] eqn:E; [|discriminate H].
    apply (IH ns' H). destruct o as [v|v|v]; simpl in E.
    + injection E as <-. exact Hd.
    + injection E as <-. exact Hd.
    + destruct (String.eqb_spec v "forwards") as [->|Hf]; simpl in E.
      * injection E as <-. left. reflexivity.
      * destruct (String.eqb_spec v "backwards") as [->|Hb];
          [injection E as <-; right; reflexivity|discriminate E].
Qed.

Lemma parse_option_scale (ns ns' : Namespace) (o : cli_option) :
  parse_option ns o = Ok ns' ->
  (args_scale ns' = args_scale ns /\ forall v, o <> opt_scale v) \/
  (exists v, o = opt_scale v /\
     args_scale ns' =
     Some (match args_scale ns with Some l => l | None => [] end ++ [v])%list).
Proof.
  destruct o as [v|v|v]; simpl; intros E.
  - right. exists v. injection E as <-. split; reflexivity.
  - left. injection E as <-. split; [reflexivity|discriminate].
  - left. destruct (String.eqb v "forwards" || String.eqb v "backwards");
      [|discriminate E].
    injection E as <-. split; [reflexivity|discriminate].
Qed.

Lemma parse_from_nonempty (argv : list cli_option) (ns args : Namespace) :
  parse_from ns argv = Ok args ->
  args_scale ns <> Some [] -> args_scale args <> Some [].
Proof.
  revert ns. induction argv as [|o rest IH]; intros ns H Hns.
  - simpl in H. injection H as <-. exact Hns.
  - simpl in H. destruct (parse_option ns o) as [ns'|e] eqn:E; [|discriminate H].
    apply (IH ns' H).
    destruct (parse_option_scale ns ns' o E) as [[-> _]|(v & _ & ->)];
      [exact Hns|].
    destruct (args_scale ns) as [[|x l]|]; discriminate.
Qed.

Lemma parse_from_In (argv : list cli_option) (ns args : Namespace)
    (l : list float) (s : float) :
  parse_from ns argv = Ok args ->
  args_scale args = Some l -> In s l ->
  (exists l0, args_scale ns = Some l0 /\ In s l0) \/ In (opt_scale s) argv.
Proof.
  revert ns. induction argv as [|o rest IH]; intros ns H Hl Hs.
  - simpl in H. injection H as <-. left. exists l. auto.
  - simpl in H. destruct (parse_option ns o) as [ns'|e] eqn:E; [|discriminate H].
    destruct (IH ns' H Hl Hs) as [(l0 & Hl0 & Hin)|Hin];
      [|right; right; exact Hin].
    destruct (parse_option_scale ns ns' o E) as [[E' _]|(v & -> & E')];
      rewrite E' in Hl0.
    + left. exists l0. auto.
    + injection Hl0 as <-. apply in_app_or in Hin.
      destruct Hin as [Hin|[<-|[]]]; [|right; left; reflexivity].
      left. destruct (args_scale ns) as [l1|]; [|destruct Hin].
      exists l1. auto.
Qed.

Lemma insort_Permutation (v : float) (l : list float) :
  Permutation (insort v l) (v :: l).
Proof.
  induction l as [|h t IH]; simpl; [reflexivity|].
  destruct (lt v h); [reflexivity|].
  rewrite IH. apply perm_swap.
Qed.

Lemma sorted_Permutation (l ts : list float) :
  sorted (Some l) = Ok ts -> Permutation ts l.
Proof.
  intros H. injection H as <-.
  assert (G : forall acc,
    Permutation (fold_left (fun acc v => insort v acc) l acc) (l ++ acc)%list).
  { induction l as [|v l IH]; intros acc; simpl; [reflexivity|].
    rewrite IH, insort_Permutation. symmetry. apply Permutation_middle. }
  rewrite G, app_nil_r. reflexivity.
Qed.

(** X10.  The [ValueError] of [find_next_scale] cannot come from the
    command line: the direction that [parse_args] returns is ["forwards"]
    or ["backwards"], so the call of [main] never takes the [case _]
    branch. *)
Theorem parsed_direction_never_raises (argv : list cli_option) (args : Namespace)
    (c : float) (T : list float) :
  parse_args argv = Ok args ->
  valid_direction (args_direction args) /\
  exists o, find_next_scale c T (args_direction args) = Ok o.
Proof.
  intros H.
  assert (Hd : valid_direction (args_direction args))
    by (apply (parse_from_direction argv default_namespace args H);
        left; reflexivity).
  split; [exact Hd|]. destruct T as [|a l]; [exists None; reflexivity|].
  destruct Hd as [-> | ->].
  - rewrite forwards_eq. eexists. reflexivity.
  - assert (HT : a :: l <> []) by discriminate.
    destruct (exists_last HT) as [l' [m ->]].
    rewrite backwards_eq. eexists. reflexivity.
Qed.

Lemma parsed_direction_never_raises_witness :
  valid_direction "backwards" /\
  exists o, find_next_scale f1_0 [f1_0; f2_0] "backwards" = Ok o.
Proof.
  apply (parsed_direction_never_raises
           [opt_direction "forwards"; opt_scale f1_0; opt_direction "backwards"]
           {| args_scale := Some [f1_0]; args_output := "@current";
              args_direction := "backwards" |} f1_0 [f1_0; f2_0]).
  reflexivity.
Defined.

(** ** [main] *)

(** [main], stage by stage. *)
Lemma main_inv (argv : list cli_option) (c : Compositor) :
  match parse_args argv with
  | Raise e => main argv c = IO [] (Raise e)
  | Ok args =>
  match NiriState_new c with
  | Raise e => main argv c = IO [] (Raise e)
  | Ok niri =>
  match outcome (resolve_output (args_output args) niri) with
  | Raise e =>
      main argv c = IO (trace (resolve_output (args_output args) niri)) (Raise e)
  | Ok target_output =>
  match sorted (args_scale args) with
  | Raise e => main argv c = IO [] (Raise e)
  | Ok target_scales =>
  match find_next_scale (scale (logical target_output)) target_scales
          (args_direction args) with
  | Raise e => main argv c = IO [] (Raise e)
  | Ok None => main argv c = IO [stdout_did_not_find] (Ok tt)
  | Ok (Some s) =>
      main argv c =
      if truthy s
      then IO (scaling_trace (name target_output) s (scale_returncode c)) (Ok tt)
      else IO [stdout_did_not_find] (Ok tt)
  end end end end end.
Proof.
  unfold main. destruct (parse_args argv) as [args|e]; [|reflexivity].
  rewrite bind_lift_Ok. unfold main_args.
  destruct (NiriState_new c) as [niri|e]; [|reflexivity].
  rewrite bind_lift_Ok.
  destruct (outcome (resolve_output (args_output args) niri))
    as [target_output|e] eqn:Eres.
  - rewrite (resolve_output_Ok _ _ _ Eres), bind_lift_Ok.
    destruct (sorted (args_scale args)) as [target_scales|e]; [|reflexivity].
    rewrite bind_lift_Ok.
    destruct (find_next_scale (scale (logical target_output)) target_scales
                (args_direction args)) as [[s|]|e]; try reflexivity.
    rewrite bind_lift_Ok. unfold scaling_trace.
    destruct (truthy s); [|reflexivity].
    destruct (scale_returncode c =? 0); reflexivity.
  - unfold mbind at 1. unfold io_bind. rewrite Eres. reflexivity.
Qed.

Lemma resolve_output_Raise (output : string) (niri : NiriState) (e : exn) :
  outcome (resolve_output output niri) = Raise e ->
  e = SystemExit 1 /\
  (trace (resolve_output output niri) = [stderr_no_focused_output] \/
   trace (resolve_output output niri) = [stderr_could_not_find_output output]).
Proof.
  unfold resolve_output.
  destruct (String.eqb output "@current").
  - destruct (focused_output niri); [discriminate|].
    simpl. intros H. injection H as <-. auto.
  - destruct (outputs niri !! output); [discriminate|].
    simpl. intros H. injection H as <-. auto.
Qed.

Lemma resolve_output_value (output : string) (niri : NiriState)
    (o : OutputEntryDict) :
  outcome (resolve_output output niri) = Ok o ->
  exists key, outputs niri !! key = Some o.
Proof.
  unfold resolve_output. destruct (String.eqb output "@current").
  - unfold focused_output.
    destruct (focused_workspace niri) as [w|]; [|discriminate].
    destruct (ws_output w) as [n|]; [|discriminate].
    destruct (str_truthy n); [|discriminate].
    destruct (outputs niri !! n) as [o'|] eqn:E; [|discriminate].
    simpl. intros H. injection H as <-. exists n. exact E.
  - destruct (outputs niri !! output) as [o'|] eqn:E; [|discriminate].
    simpl. intros H. injection H as <-. exists output. exact E.
Qed.

Lemma find_next_scale_None (c : float) (T : list float) (d : string) :
  valid_direction d -> find_next_scale c T d = Ok None -> T = [].
Proof.
  intros Hd H. destruct T as [|a l]; [reflexivity|exfalso].
  destruct Hd as [-> | ->].
  - rewrite forwards_eq in H. discriminate H.
  - assert (HT : a :: l <> []) by discriminate.
    destruct (exists_last HT) as [l' [m E]]. rewrite E in H.
    rewrite backwards_eq in H. discriminate H.
Qed.

Lemma sorted_Some (x : option (list float)) (ts : list float) :
  sorted x = Ok ts -> exists l, x = Some l /\ Permutation ts l.
Proof.
  destruct x as [l|]; [|discriminate]. intros H. exists l.
  split; [reflexivity|]. apply sorted_Permutation. exact H.
Qed.

Lemma scaling_trace_run (n n' : string) (s s' : float) (rc : Z) :
  In (run_niri_msg_output_scale n s) (scaling_trace n' s' rc) ->
  n = n' /\ s = s'.
Proof.
  unfold scaling_trace. simpl. intros [H|[H|H]]; [discriminate H| |].
  - injection H as -> ->. auto.
  - destruct (rc =? 0); [destruct H|destruct H as [H|[]]; discriminate H].
Qed.

(** X11.  What a run can print and do: nothing at all with an exception;
    one of the two messages on standard error with exit status 1; the
    message that no next scale was found; or the announcement of a scale
    that is not zero followed by one command for that output and scale,
    with the failure message after it when the command fails.  A run
    issues at most one command, and once it has issued it the run ends
    normally, also when the command failed. *)
Theorem run_shape (argv : list cli_option) (c : Compositor) :
  (exists e, main argv c = IO [] (Raise e)) \/
  main argv c = IO [stderr_no_focused_output] (Raise (SystemExit 1)) \/
  (exists n,
      main argv c = IO [stderr_could_not_find_output n] (Raise (SystemExit 1))) \/
  main argv c = IO [stdout_did_not_find] (Ok tt) \/
  (exists n s, truthy s = true /\
      main argv c =
      IO ([stdout_scaling n s; run_niri_msg_output_scale n s] ++
          (if scale_returncode c =? 0 then [] else [stdout_could_not_switch]))
         (Ok tt)).
Proof.
  pose proof (main_inv argv c) as H.
  destruct (parse_args argv) as [args|e]; [|left; eauto].
  destruct (NiriState_new c) as [niri|e]; [|left; eauto].
  destruct (outcome (resolve_output (args_output args) niri))
    as [o|e] eqn:Eres.
  - destruct (sorted (args_scale args)) as [ts|e]; [|left; eauto].
    destruct (find_next_scale (scale (logical o)) ts (args_direction args))
      as [[s|]|e]; [| |left; eauto].
    + destruct (truthy s) eqn:Es; [|right; right; right; left; exact H].
      right. right. right. right. exists (name o), s. auto.
    + right. right. right. left. exact H.
  - destruct (resolve_output_Raise _ _ _ Eres) as [-> [E|E]]; rewrite E in H.
    + right. left. exact H.
    + right. right. left. eauto.
Qed.

(** X12.  A run only sets what the user asked for: the scale of a command
    it issues is a value of a [--scale] option of the command line and is
    not a zero, and the output of the command is the [name] of an entry of
    the compositor's outputs. *)
Theorem command_from_command_line (argv : list cli_option) (c : Compositor)
    (n : string) (s : float) :
  In (run_niri_msg_output_scale n s) (trace (main argv c)) ->
  In (opt_scale s) argv /\ truthy s = true /\
  exists niri key o,
    NiriState_new c = Ok niri /\ outputs niri !! key = Some o /\ name o = n.
Proof.
  intros Hin. pose proof (main_inv argv c) as H.
  destruct (parse_args argv) as [args|e] eqn:Eargs;
    [|rewrite H in Hin; destruct Hin].
  destruct (NiriState_new c) as [niri|e]; [|rewrite H in Hin; destruct Hin].
  destruct (outcome (resolve_output (args_output args) niri))
    as [o|e] eqn:Eres.
  - destruct (sorted (args_scale args)) as [ts|e] eqn:Esort;
      [|rewrite H in Hin; destruct Hin].
    destruct (find_next_scale (scale (logical o)) ts (args_direction args))
      as [[s'|]|e] eqn:Enext; rewrite H in Hin; simpl in Hin.
    + destruct (truthy s') eqn:Es; simpl in Hin;
        [|destruct Hin as [Hin|[]]; discriminate Hin].
      apply scaling_trace_run in Hin. destruct Hin as [-> ->].
      destruct (sorted_Some _ _ Esort) as (l & El & Hperm).
      split; [|split; [exact Es|]].
      * apply find_next_scale_In in Enext.
        apply (Permutation_in _ Hperm) in Enext.
        destruct (parse_from_In argv default_namespace args l s' Eargs El Enext)
          as [(l0 & E0 & _)|Hargv]; [discriminate E0|exact Hargv].
      * destruct (resolve_output_value _ _ _ Eres) as [key Hkey].
        exists niri, key, o. auto.
    + destruct Hin as [Hin|[]]; discriminate Hin.
    + destruct Hin.
  - destruct (resolve_output_Raise _ _ _ Eres) as [_ [E|E]];
      rewrite H in Hin; simpl in Hin; rewrite E in Hin;
      destruct Hin as [Hin|[]]; discriminate Hin.
Qed.

Lemma command_from_command_line_witness :
  In (opt_scale f1_5) [opt_scale f1_5; opt_scale f1_0] /\ truthy f1_5 = true /\
  exists niri key o,
    NiriState_new laptop = Ok niri /\ outputs niri !! key = Some o /\
    name o = "eDP-1".
Proof.
  apply (command_from_command_line [opt_scale f1_5; opt_scale f1_0] laptop).
  vm_compute. right. left. reflexivity.
Defined.

(** X13.  The message that no next scale was found comes only from a zero
    on the command line: a run that prints it was given a [--scale] that
    is [0.0] or [-0.0]. *)
Theorem no_next_scale_only_with_zero (argv : list cli_option) (c : Compositor) :
  In stdout_did_not_find (trace (main argv c)) ->
  exists v, In (opt_scale v) argv /\ truthy v = false.
Proof.
  intros Hin. pose proof (main_inv argv c) as H.
  destruct (parse_args argv) as [args|e] eqn:Eargs;
    [|rewrite H in Hin; destruct Hin].
  destruct (NiriState_new c) as [niri|e]; [|rewrite H in Hin; destruct Hin].
  destruct (outcome (resolve_output (args_output args) niri))
    as [o|e] eqn:Eres.
  - destruct (sorted (args_scale args)) as [ts|e] eqn:Esort;
      [|rewrite H in Hin; destruct Hin].
    destruct (sorted_Some _ _ Esort) as (l & El & Hperm).
    destruct (find_next_scale (scale (logical o)) ts (args_direction args))
      as [[s'|]|e] eqn:Enext.
    + destruct (truthy s') eqn:Es.
      * rewrite H in Hin. simpl in Hin.
        destruct Hin as [Hin|[Hin|Hin]]; try discriminate Hin.
        destruct (scale_returncode c =? 0); [destruct Hin|].
        destruct Hin as [Hin|[]]; discriminate Hin.
      * exists s'. split; [|exact Es].
        apply find_next_scale_In in Enext.
        apply (Permutation_in _ Hperm) in Enext.
        destruct (parse_from_In argv default_namespace args l s' Eargs El Enext)
          as [(l0 & E0 & _)|Hargv]; [discriminate E0|exact Hargv].
    + exfalso. apply find_next_scale_None in Enext.
      * subst ts. apply Permutation_nil in Hperm. subst l.
        apply (parse_from_nonempty argv default_namespace args Eargs);
          [discriminate|exact El].
      * apply (parse_from_direction argv default_namespace args Eargs).
        left. reflexivity.
    + rewrite H in Hin. destruct Hin.
  - destruct (resolve_output_Raise _ _ _ Eres) as [_ [E|E]];
      rewrite H in Hin; simpl in Hin; rewrite E in Hin;
      destruct Hin as [Hin|[]]; discriminate Hin.
Qed.

Lemma no_next_scale_only_with_zero_witness :
  exists v, In (opt_scale v) [opt_scale zero; opt_output "eDP-1"] /\
            truthy v = false.
Proof.
  apply (no_next_scale_only_with_zero [opt_scale zero; opt_output "eDP-1"] laptop).
  vm_compute. left. reflexivity.
Defined.

(** X14.  An output name that is not ["@current"] and not a key of the
    compositor's outputs: the run prints "Could not find an output named
    ..." with that name on standard error and exits with status 1; it
    prints nothing else and issues no command. *)
Theorem unknown_output (argv : list cli_option) (args : Namespace)
    (c : Compositor) (niri : NiriState) :
  parse_args argv = Ok args ->
  args_output args <> "@current" ->
  NiriState_new c = Ok niri ->
  outputs niri !! args_output args = None ->
  main argv c =
  IO [stderr_could_not_find_output (args_output args)] (Raise (SystemExit 1)).
Proof.
  intros Hargs Hout Hnew Hkey. pose proof (main_inv argv c) as H.
  rewrite Hargs, Hnew in H. unfold resolve_output in H.
  apply String.eqb_neq in Hout. rewrite Hout, Hkey in H. exact H.
Qed.

Lemma unknown_output_witness :
  main [opt_scale f1_5; opt_output "DP-3"] laptop =
  IO [stderr_could_not_find_output "DP-3"] (Raise (SystemExit 1)).
Proof.
  apply (unknown_output [opt_scale f1_5; opt_output "DP-3"]
           {| args_scale := Some [f1_5]; args_output := "DP-3";
              args_direction := "forwards" |} laptop
           {| workspaces := [workspace 1 (Some "eDP-1") true];
              outputs := {[ "eDP-1" := eDP_1 ]} |}).
  - reflexivity.
  - discriminate.
  - reflexivity.
  - vm_compute. reflexivity.
Defined.

(** X15.  A failed query ends the run with the exception of the query and
    nothing printed: the failure of the workspaces query whatever the
    outputs query would answer, and the failure of the outputs query
    after the workspaces query has answered. *)
Theorem query_failure (argv : list cli_option) (args : Namespace)
    (c : Compositor) (e : exn) :
  parse_args argv = Ok args ->
  reply_workspaces c = Raise e \/
  (exists ws, reply_workspaces c = Ok ws /\ reply_outputs c = Raise e) ->
  main argv c = IO [] (Raise e).
Proof.
  intros Hargs Hq. pose proof (main_inv argv c) as H. rewrite Hargs in H.
  assert (Hnew : NiriState_new c = Raise e).
  { unfold NiriState_new. destruct Hq as [->|(ws & -> & ->)]; reflexivity. }
  rewrite Hnew in H. exact H.
Qed.

Lemma query_failure_witness :
  main [opt_scale f1_5]
    {| reply_workspaces := Raise (Exception "niri returned non-zero status 1");
       reply_outputs := Ok {[ "eDP-1" := eDP_1 ]};
       scale_returncode := 0 |} =
  IO [] (Raise (Exception "niri returned non-zero status 1")).
Proof.
  apply (query_failure [opt_scale f1_5]
           {| args_scale := Some [f1_5]; args_output := "@current";
              args_direction := "forwards" |}).
  - reflexivity.
  - left. reflexivity.
Defined.




Lemma find_first {A : Type} (p : A -> bool) (l1 l2 : list A) (w : A) :
  (forall u, In u l1 -> p u = false) -> p w = true ->
  List.find p (l1 ++ w :: l2)%list = Some w.
Proof.
  intros H Hw. induction l1 as [|a l1 IH]; simpl.
  - rewrite Hw. reflexivity.
  - rewrite (H a) by (left; reflexivity). apply IH.
    intros u Hu. apply H. right. exact Hu.
Qed.

(** X17.  The first focused workspace decides: when the first workspace
    with [is_focused] names a non-empty output that is a key of the
    outputs, [focused_output] is that entry, whatever comes after it in
    the list, other focused workspaces included. *)
Theorem first_focused_workspace_decides (niri : NiriState)
    (l1 l2 : list WorkspaceEntryDict) (w : WorkspaceEntryDict)
    (output_name : string) (o : OutputEntryDict) :
  workspaces niri = (l1 ++ w :: l2)%list ->
  (forall u, In u l1 -> is_focused u = false) ->
  is_focused w = true ->
  ws_output w = Some output_name ->
  output_name <> "" ->
  outputs niri !! output_name = Some o ->
  focused_output niri = Some o.
Proof.
  intros Hws Hl1 Hw Hout Hne Hkey. unfold focused_output, focused_workspace.
  rewrite Hws, (find_first is_focused l1 l2 w Hl1 Hw), Hout.
  unfold str_truthy. apply String.eqb_neq in Hne. rewrite Hne. exact Hkey.
Qed.

Lemma first_focused_workspace_decides_witness :
  focused_output
    {| workspaces := [workspace 1 (Some "HDMI-A-1") false;
                      workspace 2 (Some "eDP-1") true;
                      workspace 3 (Some "HDMI-A-1") true];
       outputs := {[ "eDP-1" := eDP_1 ]} |} = Some eDP_1.
Proof.
  apply (first_focused_workspace_decides _
           [workspace 1 (Some "HDMI-A-1") false]
           [workspace 3 (Some "HDMI-A-1") true]
           (workspace 2 (Some "eDP-1") true) "eDP-1" eDP_1).
  - reflexivity.
  - intros u [<-|[]]. reflexivity.
  - reflexivity.
  - reflexivity.
  - discriminate.
  - vm_compute. reflexivity.
Defined.

(** X18.  An empty output name counts as no output name: when the focused
    workspace has the output name [""], [focused_output] is [None], also
    when the outputs have the key [""], and a run on ["@current"] prints
    "No focused output!" and exits with status 1. *)
Theorem empty_output_name (argv : list cli_option) (args : Namespace)
    (c : Compositor) (niri : NiriState) (w : WorkspaceEntryDict) :
  parse_args argv = Ok args ->
  args_output args = "@current" ->
  NiriState_new c = Ok niri ->
  focused_workspace niri = Some w ->
  ws_output w = Some "" ->
  focused_output niri = None /\
  main argv c = IO [stderr_no_focused_output] (Raise (SystemExit 1)).
Proof.
  intros Hargs Hout Hnew Hw Hname.
  assert (Hfo : focused_output niri = None)
    by (unfold focused_output; rewrite Hw, Hname; reflexivity).
  split; [exact Hfo|]. pose proof (main_inv argv c) as H.
  rewrite Hargs, Hnew in H. unfold resolve_output in H.
  rewrite Hout, Hfo in H. exact H.
Qed.

Lemma empty_output_name_witness :
  focused_output
    {| workspaces := [workspace 1 (Some "") true];
       outputs := {[ "" := eDP_1 ]} |} = None /\
  main [opt_scale f1_5]
    {| reply_workspaces := Ok [workspace 1 (Some "") true];
       reply_outputs := Ok {[ "" := eDP_1 ]};
       scale_returncode := 0 |} =
  IO [stderr_no_focused_output] (Raise (SystemExit 1)).
Proof.
  apply (empty_output_name [opt_scale f1_5]
           {| args_scale := Some [f1_5]; args_output := "@current";
              args_direction := "forwards" |} _ _
           (workspace 1 (Some "") true)); reflexivity.
Defined.

Lemma lt_not_nan (a b : float) : lt a b = true -> eq b b = true.
Proof.
  unfold lt, eq, SFltb, SFeqb.
  destruct (SFcompare a b) as [[]|] eqn:E; try discriminate. intros _.
  rewrite (compare_refl b a _ (compare_flip a b _ E)). reflexivity.
Qed.

Lemma parse_from_keeps (argv : list cli_option) (ns args : Namespace)
    (l0 : list float) (v : float) :
  parse_from ns argv = Ok args ->
  args_scale ns = Some l0 -> In v l0 ->
  exists l, args_scale args = Some l /\ In v l.
Proof.
  revert ns l0. induction argv as [|o rest IH]; intros ns l0 H Hns Hv.
  - simpl in H. injection H as <-. exists l0. auto.
  - simpl in H. destruct (parse_option ns o) as [ns'|e] eqn:E; [|discriminate H].
    destruct (parse_option_scale ns ns' o E) as [[E' _]|(w & _ & E')].
    + apply (IH ns' l0 H); [congruence|exact Hv].
    + rewrite Hns in E'. apply (IH ns' _ H E').
      apply in_or_app. left. exact Hv.
Qed.

Lemma parse_from_has (argv : list cli_option) (ns args : Namespace) (v : float) :
  parse_from ns argv = Ok args ->
  In (opt_scale v) argv ->
  exists l, args_scale args = Some l /\ In v l.
Proof.
  revert ns. induction argv as [|o rest IH]; intros ns H Hv; [destruct Hv|].
  simpl in H. destruct (parse_option ns o) as [ns'|e] eqn:E; [|discriminate H].
  destruct Hv as [->|Hv]; [|apply (IH ns' H Hv)].
  simpl in E. injection E as <-.
  apply (parse_from_keeps rest _ args _ v H eq_refl).
  apply in_or_app. right. left. reflexivity.
Qed.

(** X19.  A run with strictly positive scales of which two differ, on an
    output that resolves: [main] announces and issues one command for that
    output, with a scale that comes from the command line and is not equal
    to the current scale of the output, and ends normally. *)
Theorem run_moves_to_another_scale (argv : list cli_option) (args : Namespace)
    (c : Compositor) (niri : NiriState) (o : OutputEntryDict) (a b : float) :
  parse_args argv = Ok args ->
  NiriState_new c = Ok niri ->
  outcome (resolve_output (args_output args) niri) = Ok o ->
  (forall v, In (opt_scale v) argv -> gt v zero = true) ->
  In (opt_scale a) argv -> In (opt_scale b) argv -> eq a b = false ->
  exists r,
    In (opt_scale r) argv /\ eq r (scale (logical o)) = false /\
    main argv c =
    IO ([stdout_scaling (name o) r; run_niri_msg_output_scale (name o) r] ++
        (if scale_returncode c =? 0 then [] else [stdout_could_not_switch]))
       (Ok tt).
Proof.
  intros Hargs Hnew Hres Hpos Ha Hb Hab.
  destruct (parse_from_has argv default_namespace args a Hargs Ha) as (l & El & Hal).
  destruct (parse_from_has argv default_namespace args b Hargs Hb) as (l' & El' & Hbl).
  rewrite El in El'. injection El' as <-.
  assert (Hl : forall t, In t l -> In (opt_scale t) argv).
  { intros t Ht.
    destruct (parse_from_In argv default_namespace args l t Hargs El Ht)
      as [(l0 & E0 & _)|Hargv]; [discriminate E0|exact Hargv]. }
  assert (Hnan : no_nan l).
  { intros t Ht. apply (lt_not_nan zero t). apply (Hpos t (Hl t Ht)). }
  destruct (sorted_ascending l Hnan) as (ts & Ets & Hasc).
  pose proof (sorted_Permutation l ts Ets) as Hperm.
  assert (Hd : valid_direction (args_direction args))
    by (apply (parse_from_direction argv default_namespace args Hargs);
        left; reflexivity).
  destruct (next_differs (scale (logical o)) ts (args_direction args) Hasc)
    as (r & Hr & Hin & Hne); [| |exact Hd|].
  - intros t Ht. apply lt_truthy. apply (Hpos t). apply Hl.
    apply (Permutation_in _ Hperm). exact Ht.
  - exists a, b. symmetry in Hperm.
    split; [apply (Permutation_in _ Hperm); exact Hal|].
    split; [apply (Permutation_in _ Hperm); exact Hbl|exact Hab].
  - assert (Hrl : In (opt_scale r) argv)
      by (apply Hl; apply (Permutation_in _ Hperm); exact Hin).
    exists r. split; [exact Hrl|]. split; [exact Hne|].
    pose proof (main_inv argv c) as H.
    rewrite Hargs, Hnew, Hres, El, Ets, Hr in H.
    rewrite (lt_truthy r (Hpos r Hrl)) in H. exact H.
Qed.

Lemma run_moves_to_another_scale_witness :
  exists r,
    In (opt_scale r) [opt_scale f2_0; opt_scale f1_0; opt_scale f1_5] /\
    eq r (scale (logical eDP_1)) = false /\
    main [opt_scale f2_0; opt_scale f1_0; opt_scale f1_5] laptop =
    IO ([stdout_scaling (name eDP_1) r;
         run_niri_msg_output_scale (name eDP_1) r] ++
        (if scale_returncode laptop =? 0 then [] else [stdout_could_not_switch]))
       (Ok tt).
Proof.
  apply (run_moves_to_another_scale
           [opt_scale f2_0; opt_scale f1_0; opt_scale f1_5]
           {| args_scale := Some [f2_0; f1_0; f1_5]; args_output := "@current";
              args_direction := "forwards" |} laptop
           {| workspaces := [workspace 1 (Some "eDP-1") true];
              outputs := {[ "eDP-1" := eDP_1 ]} |} eDP_1 f2_0 f1_0).
  - reflexivity.
  - reflexivity.
  - vm_compute. reflexivity.
  - intros v [H|[H|[H|[]]]]; injection H as <-; reflexivity.
  - left. reflexivity.
  - right. left. reflexivity.
  - reflexivity.
Defined.

(** ** The query client *)

Section QueryClientProperties.

Variable json : Type.
Variable loads : string -> result json.
Variable popen : nat -> list string -> Process.

Abbreviation query := (niri_json_from_msg json loads popen).
Abbreviation raw := (niri_json_from_msg_raw json loads popen).

Lemma raw_state (msg : list string) (type : string) (st : Client json) :
  cache (snd (raw msg type st)) = cache st /\
  started (snd (raw msg type st)) =
  (started st ++ [["niri"; "msg"; "--json"] ++ msg])%list.
Proof.
  unfold niri_json_from_msg_raw.
  destruct (negb (returncode (popen _ _) =? 0)); [split; reflexivity|].
  destruct (stdout (popen _ _)); split; reflexivity.
Qed.

Lemma query_hit (msg : list string) (type : string) (st : Client json)
    (v : json) :
  cache st !! (msg, type) = Some v -> query msg type st = (Ok v, st).
Proof.
  intros H. unfold niri_json_from_msg, _niri_json_from_msg_cached.
  rewrite H. reflexivity.
Qed.

Lemma query_miss (msg : list string) (type : string) (st : Client json) :
  cache st !! (msg, type) = None ->
  query msg type st =
  match fst (raw msg type st) with
  | Ok v => (Ok v, {| cache := <[(msg, type) := v]> (cache st);
                      started := started (snd (raw msg type st)) |})
  | Raise e => (Raise e, {| cache := cache st;
                            started := started (snd (raw msg type st)) |})
  end.
Proof.
  intros H. unfold niri_json_from_msg, _niri_json_from_msg_cached.
  rewrite H. destruct (raw_state msg type st) as [Hc Hs].
  destruct (raw msg type st) as [[v|e] [c s]]; simpl in *; subst; reflexivity.
Qed.

Lemma query_stores (msg : list string) (type : string) (st st' : Client json)
    (v : json) :
  query msg type st = (Ok v, st') -> cache st' !! (msg, type) = Some v.
Proof.
  destruct (cache st !! (msg, type)) as [w|] eqn:E.
  - rewrite (query_hit msg type st w E). intros H. injection H as <- <-.
    exact E.
  - rewrite (query_miss msg type st E).
    destruct (fst (raw msg type st)) as [w|e]; intros H; [|discriminate H].
    injection H as <- <-. simpl. apply lookup_insert_eq.
Qed.

Lemma query_keeps (msg : list string) (type : string) (st : Client json)
    (k : list string * string) (v : json) :
  cache st !! k = Some v -> cache (snd (query msg type st)) !! k = Some v.
Proof.
  intros H. destruct (cache st !! (msg, type)) as [w|] eqn:E.
  - rewrite (query_hit msg type st w E). exact H.
  - rewrite (query_miss msg type st E).
    destruct (fst (raw msg type st)) as [w|e]; simpl; [|exact H].
    rewrite lookup_insert_ne; [exact H|]. intros <-. congruence.
Qed.

Lemma queries_keep (qs : list (list string * string)) (st : Client json)
    (k : list string * string) (v : json) :
  cache st !! k = Some v ->
  cache (queries json loads popen qs st) !! k = Some v.
Proof.
  revert st. induction qs as [|[msg type] qs IH]; intros st H; [exact H|].
  simpl. apply IH. apply query_keeps. exact H.
Qed.

(** X20.  The answer to a query is fixed by its first success: once
    [niri_json_from_msg] has returned a document for a message, every later
    call for the same message, after any other queries, returns the same
    document and starts no process, whatever the compositor would answer
    by then. *)
Theorem answer_is_memoized (msg : list string) (type : string)
    (st st1 : Client json) (v : json) (qs : list (list string * string)) :
  query msg type st = (Ok v, st1) ->
  query msg type (queries json loads popen qs st1) =
  (Ok v, queries json loads popen qs st1).
Proof.
  intros H. apply query_hit. apply queries_keep.
  apply (query_stores msg type st st1 v H).
Qed.

Lemma query_started (msg : list string) (type : string) (st : Client json) :
  started (snd (query msg type st)) =
  (started st ++
   match cache st !! (msg, type) with
   | Some _ => []
   | None => [["niri"; "msg"; "--json"] ++ msg]
   end)%list.
Proof.
  destruct (cache st !! (msg, type)) as [w|] eqn:E.
  - rewrite (query_hit msg type st w E), app_nil_r. reflexivity.
  - rewrite (query_miss msg type st E).
    destruct (raw_state msg type st) as [_ Hs].
    destruct (fst (raw msg type st)); simpl; exact Hs.
Qed.

(** X21.  A failed query is not memoized: the call has started one
    process and left the table as it was, and the next call for the same
    message starts a process again. *)
Theorem failure_is_not_memoized (msg : list string) (type : string)
    (st st1 : Client json) (e : exn) :
  query msg type st = (Raise e, st1) ->
  let command := (["niri"; "msg"; "--json"] ++ msg)%list in
  cache st1 = cache st /\
  started st1 = (started st ++ [command])%list /\
  started (snd (query msg type st1)) = (started st ++ [command; command])%list.
Proof.
  intros H command.
  destruct (cache st !! (msg, type)) as [w|] eqn:E;
    [rewrite (query_hit msg type st w E) in H; discriminate H|].
  pose proof (query_started msg type st) as Hst. rewrite E in Hst.
  assert (Hc : cache st1 = cache st).
  { rewrite (query_miss msg type st E) in H.
    destruct (fst (raw msg type st)) as [w|e']; [discriminate H|].
    injection H as _ <-. reflexivity. }
  rewrite H in Hst. simpl in Hst.
  split; [exact Hc|]. split; [exact Hst|].
  rewrite query_started, Hc, E, Hst, <- app_assoc. reflexivity.
Qed.

(** X22.  A query starts a process exactly when its message is not in the
    table, and then exactly one: [niri msg --json] followed by the
    message. *)
Theorem one_process_per_miss (msg : list string) (type : string)
    (st : Client json) :
  started (snd (query msg type st)) =
  (started st ++
   match cache st !! (msg, type) with
   | Some _ => []
   | None => [["niri"; "msg"; "--json"] ++ msg]
   end)%list.
Proof.
  destruct (cache st !! (msg, type)) as [w|] eqn:E.
  - rewrite (query_hit msg type st w E), app_nil_r. reflexivity.
  - rewrite (query_miss msg type st E).
    destruct (raw_state msg type st) as [_ Hs].
    destruct (fst (raw msg type st)); simpl; exact Hs.
Qed.

(** X23.  [NiriState.new] asks for the workspaces first: when that query
    is not in the table and [niri] exits with a non-zero status, the call
    raises the exception that names the status, the output of the process
    is not parsed, and the outputs query is not started. *)
Theorem workspaces_failure_stops_new (st : Client json) :
  let command := ["niri"; "msg"; "--json"; "workspaces"] in
  let status := returncode (popen (length (started st)) command) in
  cache st !! (["workspaces"], "Sequence[WorkspaceEntryDict]") = None ->
  status <> 0 ->
  NiriState_new_queries json loads popen st =
  (Raise (Exception ("niri returned non-zero status " +:+ pretty status)),
   {| cache := cache st; started := (started st ++ [command])%list |}).
Proof.
  intros command status Hc Hs. unfold NiriState_new_queries.
  rewrite (query_miss _ _ st Hc). unfold niri_json_from_msg_raw.
  simpl app. fold command. fold status.
  apply Z.eqb_neq in Hs. rewrite Hs. reflexivity.
Qed.

(** X24.  [NiriState.new] a second time costs nothing: after a call that
    returned the two documents, a new call returns the same documents and
    starts no process. *)
Theorem new_twice (st st1 : Client json) (docs : json * json) :
  NiriState_new_queries json loads popen st = (Ok docs, st1) ->
  NiriState_new_queries json loads popen st1 = (Ok docs, st1).
Proof.
  unfold NiriState_new_queries. intros H.
  destruct (query ["workspaces"] _ st) as [[ws|e] st2] eqn:E1;
    [|discriminate H].
  destruct (query ["outputs"] _ st2) as [[outs|e] st3] eqn:E2;
    [|discriminate H].
  injection H as <- <-.
  apply query_stores in E1.
  pose proof (query_keeps ["outputs"] "Mapping[str, OutputEntryDict]" st2 _ _ E1)
    as E1'.
  rewrite E2 in E1'. simpl in E1'. apply query_stores in E2.
  rewrite (query_hit _ _ st3 ws E1'), (query_hit _ _ st3 outs E2).
  reflexivity.
Qed.

End QueryClientProperties.

Lemma answer_is_memoized_witness :
  niri_json_from_msg string text_loads answering ["workspaces"] "list"
    (queries string text_loads answering [(["outputs"], "list")]
       (snd (niri_json_from_msg string text_loads answering
               ["workspaces"] "list" fresh))) =
  (Ok "[]",
   queries string text_loads answering [(["outputs"], "list")]
     (snd (niri_json_from_msg string text_loads answering
             ["workspaces"] "list" fresh))).
Proof.
  apply (answer_is_memoized string text_loads answering ["workspaces"] "list"
           fresh _ "[]" [(["outputs"], "list")]).
  vm_compute. reflexivity.
Defined.

Lemma failure_is_not_memoized_witness :
  let st1 :=
    snd (niri_json_from_msg string text_loads failing ["outputs"] "list" fresh) in
  cache st1 = cache fresh /\
  started st1 = (started fresh ++ [["niri"; "msg"; "--json"; "outputs"]])%list /\
  started (snd (niri_json_from_msg string text_loads failing
                  ["outputs"] "list" st1)) =
  (started fresh ++ [["niri"; "msg"; "--json"; "outputs"];
                     ["niri"; "msg"; "--json"; "outputs"]])%list.
Proof.
  apply (failure_is_not_memoized string text_loads failing ["outputs"] "list"
           fresh _ (Exception "niri returned non-zero status 1")).
  vm_compute. reflexivity.
Defined.

Lemma workspaces_failure_stops_new_witness :
  NiriState_new_queries string text_loads failing fresh =
  (Raise (Exception "niri returned non-zero status 1"),
   {| cache := ∅; started := [["niri"; "msg"; "--json"; "workspaces"]] |}).
Proof.
  apply (workspaces_failure_stops_new string text_loads failing fresh).
  - vm_compute. reflexivity.
  - discriminate.
Defined.

Lemma new_twice_witness :
  NiriState_new_queries string text_loads answering
    (snd (NiriState_new_queries string text_loads answering fresh)) =
  (Ok ("[]", "[]"),
   snd (NiriState_new_queries string text_loads answering fresh)).
Proof.
  apply (new_twice string text_loads answering fresh).
  vm_compute. reflexivity.
Defined.

(** ** The scale selector, continued *)

Lemma find_split (p : float -> bool) (l : list float) (r : float) :
  List.find p l = Some r ->
  exists l1 l2, l = (l1 ++ r :: l2)%list /\ p r = true /\
                forall t, In t l1 -> p t = false.
Proof.
  induction l as [|a l IH]; simpl; [discriminate|].
  destruct (p a) eqn:E.
  - intros H. injection H as <-. exists [], l. split; [reflexivity|].
    split; [exact E|]. intros t [].
  - intros H. destruct (IH H) as (l1 & l2 & -> & Hr & Hl1).
    exists (a :: l1), l2. split; [reflexivity|]. split; [exact Hr|].
    intros t [<-|Ht]; [exact E|apply Hl1; exact Ht].
Qed.

(** X25.  Every value [find_next_scale] returns is beyond the current
    scale in the direction asked for, or it is the wrap target: strictly
    greater for [forwards], strictly less for [backwards], else
    [targets[0]], respectively [targets[-1]].  This holds on every list,
    zeros and NaN included. *)
Theorem beyond_or_wrap (c r : float) (T : list float) (d : string) :
  find_next_scale c T d = Ok (Some r) ->
  (d = "forwards" /\ gt r c = true) \/
  (d = "backwards" /\ lt r c = true) \/
  wrap_target d T = Some r.
Proof.
  intros H. destruct T as [|a l]; [discriminate H|].
  unfold wrap_target.
  destruct (String.eqb_spec d "forwards") as [->|Hf].
  - rewrite forwards_eq in H.
    destruct (or_else_cases (for_break (fun s => gt s c) (a :: l) None) a)
      as [(v & Ev & _ & E)|E]; rewrite E in H; injection H as <-.
    + left. split; [reflexivity|]. apply (for_break_Some _ _ _ Ev).
    + right. right. reflexivity.
  - destruct (String.eqb_spec d "backwards") as [->|Hb].
    + assert (HT : a :: l <> []) by discriminate.
      destruct (exists_last HT) as [l' [m Hl]]. rewrite Hl in *.
      rewrite backwards_eq in H.
      destruct (or_else_cases (for_break (fun s => lt s c) (m :: rev l') None) m)
        as [(v & Ev & _ & E)|E]; rewrite E in H; injection H as <-.
      * right. left. split; [reflexivity|]. apply (for_break_Some _ _ _ Ev).
      * right. right. apply last_snoc.
    + unfold find_next_scale in H.
      apply String.eqb_neq in Hf. apply String.eqb_neq in Hb.
      rewrite Hf, Hb in H. discriminate H.
Qed.

Lemma beyond_or_wrap_witness :
  ("backwards" = "forwards" /\ gt f1_5 f1_75 = true) \/
  ("backwards" = "backwards" /\ lt f1_5 f1_75 = true) \/
  wrap_target "backwards" [f1_0; f1_5; f2_0] = Some f1_5.
Proof.
  apply (beyond_or_wrap f1_75 f1_5 [f1_0; f1_5; f2_0] "backwards").
  reflexivity.
Defined.

(** X26.  On an ascending list without a zero, when some target is
    strictly greater than the current scale, [forwards] returns the least
    of them: a target strictly greater than the current scale and [<=]
    every target that is. *)
Theorem forwards_least_greater (c t0 : float) (T : list float) :
  ascending T = true -> no_zero T ->
  In t0 T -> gt t0 c = true ->
  exists r, find_next_scale c T "forwards" = Ok (Some r) /\
            In r T /\ gt r c = true /\
            forall t, In t T -> gt t c = true -> le r t = true.
Proof.
  intros Hasc Hnz Ht0 Hgt0.
  destruct (List.find (fun s => gt s c) T) as [r|] eqn:E;
    [|rewrite (find_none _ _ E t0 Ht0) in Hgt0; discriminate Hgt0].
  destruct (find_split _ _ _ E) as (l1 & l2 & -> & Hr & Hl1).
  assert (Hin : In r (l1 ++ r :: l2)%list)
    by (apply in_or_app; right; left; reflexivity).
  exists r. split; [apply forwards_found; [exact E|apply Hnz, Hin]|].
  split; [exact Hin|]. split; [exact Hr|].
  intros t Ht Hgt. apply in_app_or in Ht. destruct Ht as [Ht|[<-|Ht]].
  - rewrite (Hl1 t Ht) in Hgt. discriminate Hgt.
  - apply (le_refl_r c r). apply lt_le. exact Hr.
  - apply ascending_app_r in Hasc. apply (ascending_head r l2 Hasc t Ht).
Qed.

Lemma forwards_least_greater_witness :
  exists r, find_next_scale f1_0 [f1_0; f1_5; f1_5; f2_0] "forwards" = Ok (Some r) /\
            In r [f1_0; f1_5; f1_5; f2_0] /\ gt r f1_0 = true /\
            forall t, In t [f1_0; f1_5; f1_5; f2_0] -> gt t f1_0 = true ->
                      le r t = true.
Proof.
  apply (forwards_least_greater f1_0 f2_0 [f1_0; f1_5; f1_5; f2_0]).
  - reflexivity.
  - intros t [<-|[<-|[<-|[<-|[]]]]]; reflexivity.
  - right. right. right. left. reflexivity.
  - reflexivity.
Defined.

(** X27.  On an ascending list without a zero, when some target is
    strictly less than the current scale, [backwards] returns the greatest
    of them: a target strictly less than the current scale and [>=] every
    target that is. *)
Theorem backwards_greatest_less (c t0 : float) (T : list float) :
  ascending T = true -> no_zero T ->
  In t0 T -> lt t0 c = true ->
  exists r, find_next_scale c T "backwards" = Ok (Some r) /\
            In r T /\ lt r c = true /\
            forall t, In t T -> lt t c = true -> le t r = true.
Proof.
  intros Hasc Hnz Ht0 Hlt0.
  destruct (List.find (fun s => lt s c) (rev T)) as [r|] eqn:E;
    [|apply in_rev in Ht0; rewrite (find_none _ _ E t0 Ht0) in Hlt0;
      discriminate Hlt0].
  destruct (find_split _ _ _ E) as (l1 & l2 & Hrev & Hr & Hl1).
  assert (HT : T = (rev l2 ++ r :: rev l1)%list).
  { rewrite <- (rev_involutive T), Hrev, rev_app_distr. simpl.
    rewrite <- app_assoc. reflexivity. }
  assert (Hin : In r T)
    by (rewrite HT; apply in_or_app; right; left; reflexivity).
  exists r. split; [apply backwards_found; [exact E|apply Hnz, Hin]|].
  split; [exact Hin|]. split; [exact Hr|].
  intros t Ht Hlt. rewrite HT in Ht, Hasc.
  apply in_app_or in Ht. destruct Ht as [Ht|[<-|Ht]].
  - apply (ascending_app_l _ _ _ Hasc t Ht).
  - apply (le_refl_l r c). apply lt_le. exact Hr.
  - apply in_rev in Ht. rewrite (Hl1 t Ht) in Hlt. discriminate Hlt.
Qed.

Lemma backwards_greatest_less_witness :
  exists r, find_next_scale f2_0 [f1_0; f1_5; f1_5; f2_0] "backwards" = Ok (Some r) /\
            In r [f1_0; f1_5; f1_5; f2_0] /\ lt r f2_0 = true /\
            forall t, In t [f1_0; f1_5; f1_5; f2_0] -> lt t f2_0 = true ->
                      le t r = true.
Proof.
  apply (backwards_greatest_less f2_0 f1_0 [f1_0; f1_5; f1_5; f2_0]).
  - reflexivity.
  - intros t [<-|[<-|[<-|[<-|[]]]]]; reflexivity.
  - left. reflexivity.
  - reflexivity.
Defined.
